(** * The AML virtual machine of gopher-os: [device/acpi/aml/vm.go]

    A shallow embedding of the VM life cycle ([NewVM], [Init]), of the
    namespace queries ([Lookup], [Visit]), of the static initialisation
    pass ([checkEntities]) and of the interpreter loop ([execBlock]),
    followed by the properties established for them.

    Conventions of the embedding.
    - Go pointers to entities are tree positions: the namespace is an
      inductive tree.  The one field the VM writes through such a pointer,
      [bufferEntity.data], lives in a heap keyed by the address of the
      buffer object, so in-place updates and aliasing stay visible.
    - A Go function that may mutate state, fail or panic is a computation
      in the monad [M]: it threads a state, returns a value or a panic and
      records the calls that cross the boundary of the file (calls out to
      the resolver, the parser, the converter and the opcode handlers, and
      the call-backs of the tree walker into the visitor).
    - [*Error] is [option Error]; an [interface{}] operand is a [value]. *)

From Stdlib Require Import ZArith Ascii String List Lia.
From Stdlib.Strings Require Import Byte.
From stdpp Require Import base option list gmap strings.
Import ListNotations.

Set Warnings "-register-all".

Local Open Scope string_scope.
Local Open Scope list_scope.
Local Open Scope Z_scope.

(* ===================================================================== *)
(** ** Data model *)
(* ===================================================================== *)

(** [opcode] is declared outside vm.go; it indexes the jump table. *)
Definition opcode : Type := Z.

(** [type Error struct { message string }] *)
Record Error : Type := mkError { message : string }.

(** [func (e *Error) Error() string] *)
Definition Error_Error (e : Error) : string := message e.

Definition errConversionFromEmptyString : Error :=
  mkError "vmConvert: conversion from String requires a non-empty value".

(** [type ctrlFlowType uint8] with its four constants. *)
Inductive ctrlFlowType : Type :=
| ctrlFlowTypeNextOpcode
| ctrlFlowTypeBreak
| ctrlFlowTypeContinue
| ctrlFlowTypeFnReturn.

Definition ctrlFlowType_eqb (a b : ctrlFlowType) : bool :=
  match a, b with
  | ctrlFlowTypeNextOpcode, ctrlFlowTypeNextOpcode
  | ctrlFlowTypeBreak, ctrlFlowTypeBreak
  | ctrlFlowTypeContinue, ctrlFlowTypeContinue
  | ctrlFlowTypeFnReturn, ctrlFlowTypeFnReturn => true
  | _, _ => false
  end.

(** Modelled from the spec: the entity structs, declared outside vm.go.
    The variants are those of the spec's data model (scope, named entity,
    method, buffer) and the unnamed entity for everything else; the
    constructors carry the fields vm.go reads: [op] (through
    [getOpcode]), [name], the [args] slice, the children of a scope, and
    the [size] operand of a buffer.  [addr] is the identity of a buffer
    object: its [data] slice is the heap cell at that address.  A [value]
    is what an [interface{}] operand can hold. *)
Inductive Entity : Type :=
| scopeEntity (op : opcode) (name : string) (children : list Entity)
| Method (op : opcode) (name : string) (argCount : Z) (children : list Entity)
| namedEntity (op : opcode) (name : string) (args : list value)
| bufferEntity (op : opcode) (addr : N) (size : value)
| unnamedEntity (op : opcode) (args : list value)
with value : Type :=
| VNil
| VUint64 (n : Z)
| VString (s : string)
| VBytes (b : list byte)
| VEntity (e : Entity)
| VObjRef (ref : value) (isArgRef : bool).

(** Modelled from the spec: [Entity.getOpcode()], defined outside vm.go:
    the "operator tag" of the entity. *)
Definition getOpcode (ent : Entity) : opcode :=
  match ent with
  | scopeEntity op _ _ | Method op _ _ _ | namedEntity op _ _
  | bufferEntity op _ _ | unnamedEntity op _ => op
  end.

(** Modelled from the spec: [Entity.Name()], defined outside vm.go. *)
Definition Name (ent : Entity) : string :=
  match ent with
  | scopeEntity _ name _ | Method _ name _ _ | namedEntity _ name _ => name
  | bufferEntity _ _ _ | unnamedEntity _ _ => ""
  end.

(** Modelled from the spec: [ScopeEntity.Children()], defined outside
    vm.go: the "ordered sequence of child Entities" of a scope; a method
    is "a callable scope". *)
Definition Children (ent : Entity) : list Entity :=
  match ent with
  | scopeEntity _ _ children | Method _ _ _ children => children
  | _ => []
  end.

(** Modelled from the spec: [ScopeEntity.Append], defined outside vm.go:
    "insertion order = program order", the new child goes last. *)
Definition Append (scope child : Entity) : Entity :=
  match scope with
  | scopeEntity op name children => scopeEntity op name (children ++ [child])
  | Method op name argCount children => Method op name argCount (children ++ [child])
  | other => other
  end.

Definition maxLocalArgs : nat := 8.
Definition maxMethodArgs : nat := 7.

(** [type execContext struct].  The [vm] back pointer is the VM the
    computation runs in. *)
Record execContext : Type := mkCtx {
  localArg : list value;
  methodArg : list value;
  ctrlFlow : ctrlFlowType;
  retVal : value
}.

(** [&execContext{vm: vm}]: every other field has its zero value. *)
Definition newExecContext : execContext :=
  {| localArg := repeat VNil maxLocalArgs;
     methodArg := repeat VNil maxMethodArgs;
     ctrlFlow := ctrlFlowTypeNextOpcode;
     retVal := VNil |}.

(** Modelled from the spec: [valueType], declared outside vm.go; the
    conversion contract "coerces among Integer, String, Buffer". *)
Inductive valueType : Type :=
| valueTypeInteger
| valueTypeString
| valueTypeBuffer.

(** Modelled from the spec: the header of a firmware table
    ([table.SDTHeader], declared outside vm.go) with "its revision
    field", the one field vm.go reads. *)
Record SDTHeader : Type := mkHeader { Revision : Z }.

(* ===================================================================== *)
(** ** The monad of VM computations *)
(* ===================================================================== *)

Inductive Event : Type :=
| EvLookupTable (tableName : string)
| EvParseAML (tableHandle : Z) (tableName : string) (header : SDTHeader)
| EvPopulateJumpTable
| EvVisitor (depth : Z) (ent : Entity)
| EvConvert (arg : value) (toType : valueType)
| EvDispatch (op : opcode) (instr : Entity).

Inductive Res (A : Type) : Type :=
| Val (a : A)
| Panic (msg : string).
Arguments Val {A} a.
Arguments Panic {A} msg.

Record Out (S A : Type) : Type := mkOut {
  st : S;
  log : list Event;
  res : Res A
}.
Arguments mkOut {S A} st log res.
Arguments st {S A} o.
Arguments log {S A} o.
Arguments res {S A} o.

Definition M (S A : Type) : Type := S -> Out S A.

Definition ret {S A} (a : A) : M S A := fun s => mkOut s [] (Val a).

Definition bind {S A B} (m : M S A) (k : A -> M S B) : M S B :=
  fun s =>
    match m s with
    | mkOut s1 l1 (Val a) =>
        match k a s1 with
        | mkOut s2 l2 r => mkOut s2 (l1 ++ l2) r
        end
    | mkOut s1 l1 (Panic msg) => mkOut s1 l1 (Panic msg)
    end.

Definition gets {S A} (f : S -> A) : M S A := fun s => mkOut s [] (Val (f s)).
Definition modify {S} (f : S -> S) : M S unit := fun s => mkOut (f s) [] (Val tt).
Definition emit {S} (e : Event) : M S unit := fun s => mkOut s [e] (Val tt).
Definition panic {S A} (msg : string) : M S A := fun s => mkOut s [] (Panic msg).

(** The outcome [o] with the events [l], recorded earlier, in front. *)
Definition prepend {S A} (l : list Event) (o : Out S A) : Out S A :=
  mkOut (st o) (l ++ log o) (res o).

Declare Scope vm_scope.
Delimit Scope vm_scope with vm.
Notation "x <- m ;; k" := (bind m (fun x => k))
  (at level 100, m at next level, right associativity) : vm_scope.
Notation "m ;;; k" := (bind m (fun _ => k))
  (at level 100, right associativity) : vm_scope.
Local Open Scope vm_scope.

(** [s[i]] on a slice: a run-time panic when [i] is out of range. *)
Definition index {S A} (s : list A) (i : nat) : M S A :=
  match nth_error s i with
  | Some a => ret a
  | None => panic "index out of range"
  end.

(* ===================================================================== *)
(** ** The virtual machine *)
(* ===================================================================== *)

(** The heap of buffer payloads: the [data] field of the buffer object at
    address [a] is [h !! a]; an absent cell is a nil slice. *)
Abbreviation Heap := (gmap N (list byte)).

(** Modelled from the spec: the error of the parser, declared outside
    vm.go: "a (module, message) decode error".  vm.go reads its [Module]
    field and calls its [Error()] method. *)
Record kernelError : Type := mkKernelError {
  Module_ : string;
  Message : string
}.

Definition kernelError_Error (e : kernelError) : string := Message e.

(** Modelled from the spec: the parser behind [tableParser.ParseAML],
    declared outside vm.go: it "populates the shared namespace tree under
    root, or reports a decode error".  The namespace it works on is the
    tree and the payloads of its buffers. *)
Definition Parser : Type :=
  Z -> string -> SDTHeader -> Entity * Heap -> (Entity * Heap) * option kernelError.

(** [type VM struct].  [tableResolver] is the [LookupTable] method of the
    resolver; [errWriter], a sink for diagnostics, is left out.  The
    entries of [jumpTable] have the type [opHandler], a parameter here. *)
Record VM (opHandler : Type) : Type := mkVM {
  tableResolver : string -> option SDTHeader;
  tableParser : Parser;
  rootNS : Entity;
  heap : Heap;
  sizeOfIntInBits : Z;
  jumpTable : opcode -> option opHandler
}.
Arguments mkVM {opHandler}.
Arguments tableResolver {opHandler} v.
Arguments tableParser {opHandler} v.
Arguments rootNS {opHandler} v.
Arguments heap {opHandler} v.
Arguments sizeOfIntInBits {opHandler} v.
Arguments jumpTable {opHandler} v.

Definition set_namespace {H} (ns : Entity * Heap) (vm : VM H) : VM H :=
  mkVM (tableResolver vm) (tableParser vm) (fst ns) (snd ns)
       (sizeOfIntInBits vm) (jumpTable vm).

Definition set_data {H} (addr : N) (data : list byte) (vm : VM H) : VM H :=
  mkVM (tableResolver vm) (tableParser vm) (rootNS vm) (<[addr := data]> (heap vm))
       (sizeOfIntInBits vm) (jumpTable vm).

Definition set_sizeOfIntInBits {H} (n : Z) (vm : VM H) : VM H :=
  mkVM (tableResolver vm) (tableParser vm) (rootNS vm) (heap vm) n (jumpTable vm).

Definition set_jumpTable {H} (t : opcode -> option H) (vm : VM H) : VM H :=
  mkVM (tableResolver vm) (tableParser vm) (rootNS vm) (heap vm)
       (sizeOfIntInBits vm) t.

(* ===================================================================== *)
(** ** The interpreter loop: [execBlock] *)
(* ===================================================================== *)

Section Interpreter.

(** Everything an opcode handler can reach besides the execution
    context: the namespace behind [ctx.vm] and the hardware. *)
Variable World : Type.

Record execState : Type := mkExec { ctx : execContext; world : World }.

(** The type [opHandler] of the handlers in the jump table, declared
    outside vm.go: a function of the context and the instruction.  A
    handler updates the context and the world and returns an error, or
    panics. *)
Definition opHandler : Type :=
  Entity -> execState -> execState * Res (option Error).

(** [vm.jumpTable[instr.getOpcode()](ctx, instr)]: the entry is [None]
    for a nil handler and for an opcode beyond the table. *)
Definition dispatch (vm : VM opHandler) (instr : Entity)
  : M execState (option Error) :=
  match jumpTable vm (getOpcode instr) with
  | None => panic "invalid jump table entry"
  | Some handler =>
      fun s =>
        let (s', r) := handler instr s in
        mkOut s' [EvDispatch (getOpcode instr) instr] r
  end.

(** The [for] loop of [execBlock].  [fuel] bounds the number of
    iterations; [execBlock] supplies [numInstr], which the loop cannot
    exceed since [instrIndex] grows by one per iteration. *)
Fixpoint execLoop (vm : VM opHandler) (instrList : list Entity)
    (numInstr : nat) (fuel : nat) (instrIndex : nat)
  : M execState (option Error) :=
  match fuel with
  | O => ret None
  | S fuel' =>
      cf <- gets (fun s => ctrlFlow (ctx s)) ;;
      if (instrIndex <? numInstr)%nat
         && ctrlFlowType_eqb cf ctrlFlowTypeNextOpcode
      then
        instr <- index instrList instrIndex ;;
        err <- dispatch vm instr ;;
        match err with
        | Some e => ret (Some e)
        | None => execLoop vm instrList numInstr fuel' (S instrIndex)
        end
      else ret None
  end.

Definition execBlock (vm : VM opHandler) (block : Entity)
  : M execState (option Error) :=
  let instrList := Children block in
  let numInstr := length instrList in
  execLoop vm instrList numInstr numInstr 0.

(** The event [execBlock] records for one dispatched instruction. *)
Definition dispatched (instr : Entity) : Event :=
  EvDispatch (getOpcode instr) instr.

(** The outcome [o] of the rest of the loop, with the events of the
    instructions [done] before it put in front. *)
Definition after (done : list Entity) (o : Out execState (option Error))
  : Out execState (option Error) :=
  prepend (map dispatched done) o.

(** [straight vm l s s']: every instruction of [l] was executed, in
    order, from [s] to [s']: each one was started while the signal was
    NextOpcode and its handler returned without an error. *)
Inductive straight (vm : VM opHandler)
  : list Entity -> execState -> execState -> Prop :=
| straight_nil s : straight vm [] s s
| straight_cons instr l handler s s1 s2 :
    ctrlFlow (ctx s) = ctrlFlowTypeNextOpcode ->
    jumpTable vm (getOpcode instr) = Some handler ->
    handler instr s = (s1, Val None) ->
    straight vm l s1 s2 ->
    straight vm (instr :: l) s s2.

(** What stops the loop once the instructions [done] were executed and
    [rest] remain, in state [s1]; [o] is the outcome of the block. *)
Inductive blockStop (vm : VM opHandler) (done rest : list Entity)
    (s1 : execState) (o : Out execState (option Error)) : Prop :=
| stop_end :
    rest = [] ->
    o = mkOut s1 (map dispatched done) (Val None) ->
    blockStop vm done rest s1 o
| stop_signal :
    ctrlFlow (ctx s1) <> ctrlFlowTypeNextOpcode ->
    o = mkOut s1 (map dispatched done) (Val None) ->
    blockStop vm done rest s1 o
| stop_error instr rest' handler s2 e :
    rest = instr :: rest' ->
    ctrlFlow (ctx s1) = ctrlFlowTypeNextOpcode ->
    jumpTable vm (getOpcode instr) = Some handler ->
    handler instr s1 = (s2, Val (Some e)) ->
    o = mkOut s2 (map dispatched (done ++ [instr])) (Val (Some e)) ->
    blockStop vm done rest s1 o
| stop_handler_panic instr rest' handler s2 msg :
    rest = instr :: rest' ->
    ctrlFlow (ctx s1) = ctrlFlowTypeNextOpcode ->
    jumpTable vm (getOpcode instr) = Some handler ->
    handler instr s1 = (s2, Panic msg) ->
    o = mkOut s2 (map dispatched (done ++ [instr])) (Panic msg) ->
    blockStop vm done rest s1 o
| stop_no_handler instr rest' :
    rest = instr :: rest' ->
    ctrlFlow (ctx s1) = ctrlFlowTypeNextOpcode ->
    jumpTable vm (getOpcode instr) = None ->
    o = mkOut s1 (map dispatched done) (Panic "invalid jump table entry") ->
    blockStop vm done rest s1 o.

End Interpreter.

Arguments mkExec {World} ctx world.
Arguments ctx {World} e.
Arguments world {World} e.
Arguments dispatch {World} vm instr.
Arguments execLoop {World} vm instrList numInstr fuel instrIndex.
Arguments execBlock {World} vm block.
Arguments after {World} done o.
Arguments straight {World} vm _ _ _.
Arguments blockStop {World} vm done rest s1 o.

(* ===================================================================== *)
(** ** Namespace queries: [Lookup] and [Visit] *)
(* ===================================================================== *)

(** Modelled from the spec: the segments of a relative path, for
    [scopeFindRelative], which is defined outside vm.go: paths "are
    sequences of fixed-width (4-character) name segments relative to
    root".  A shorter tail is a segment of its own. *)
Fixpoint pathSegments (path : string) : list string :=
  match path with
  | String a (String b (String c (String d rest))) =>
      String a (String b (String c (String d ""))) :: pathSegments rest
  | "" => []
  | tail => [tail]
  end.

(** Modelled from the spec: the first child with the given name. *)
Definition findChild (name : string) (children : list Entity) : option Entity :=
  List.find (fun child => String.eqb (Name child) name) children.

(** Modelled from the spec: the walk of [scopeFindRelative]: segments are
    "matched top-down", "consuming one hierarchical segment at a time";
    an unmatched segment gives "not found" (nil). *)
Fixpoint walkSegments (ns : Entity) (segments : list string) : option Entity :=
  match segments with
  | [] => Some ns
  | seg :: segments' =>
      match findChild seg (Children ns) with
      | None => None
      | Some child => walkSegments child segments'
      end
  end.

(** Modelled from the spec: [scopeFindRelative], defined outside vm.go. *)
Definition scopeFindRelative (ns : Entity) (path : string) : option Entity :=
  walkSegments ns (pathSegments path).

(** Modelled from the spec: [EntityType], the filter of [Visit], declared
    outside vm.go: the visitor is invoked "on every Entity whose variant
    matches the filter (a wildcard filter matches everything)". *)
Inductive EntityType : Type :=
| EntityTypeAny
| EntityTypeOnly (variant : Entity -> bool).

(** Modelled from the spec: whether the filter lets the entity through. *)
Definition entityMatches (entType : EntityType) (ent : Entity) : bool :=
  match entType with
  | EntityTypeAny => true
  | EntityTypeOnly variant => variant ent
  end.

(** [type Visitor func(depth int, obj Entity) (keepRecursing bool)]; the
    state [S] holds what the function body can reach. *)
Definition Visitor (S : Type) : Type := Z -> Entity -> M S bool.

(** Modelled from the spec: [scopeVisit], defined outside vm.go: a
    "depth-first, parent-before-children traversal", where "the visitor
    returns whether to descend into that Entity's children" and
    "traversal order across siblings follows tree insertion order". *)
Fixpoint scopeVisit {S} (depth : Z) (ent : Entity) (entType : EntityType)
    (visitorFn : Visitor S) {struct ent} : M S unit :=
  keepRecursing <- (if entityMatches entType ent
                    then visitorFn depth ent else ret true) ;;
  if keepRecursing : bool then
    let visitAll :=
      fix visitAll (children : list Entity) : M S unit :=
        match children with
        | [] => ret tt
        | child :: children' =>
            scopeVisit (depth + 1) child entType visitorFn ;;;
            visitAll children'
        end in
    match ent with
    | scopeEntity _ _ children => visitAll children
    | Method _ _ _ children => visitAll children
    | _ => ret tt
    end
  else ret tt.

(** Modelled from the spec: the loop of [scopeVisit] over the children,
    by name. *)
Fixpoint visitChildren {S} (depth : Z) (children : list Entity)
    (entType : EntityType) (visitorFn : Visitor S) : M S unit :=
  match children with
  | [] => ret tt
  | child :: children' =>
      scopeVisit depth child entType visitorFn ;;;
      visitChildren depth children' entType visitorFn
  end.

Section Machine.

Variable opHandler : Type.

(** [opScope], the opcode of a scope, is declared outside vm.go. *)
Variable opScope : opcode.

(** [NewParser(errWriter, root)], defined outside vm.go. *)
Variable NewParser : Entity -> Parser.

(** Modelled from the spec: [populateJumpTable], defined outside vm.go,
    "builds the dispatch table": it maps the table found in the VM to
    the table it leaves there. *)
Variable populateJumpTable :
  (opcode -> option opHandler) -> (opcode -> option opHandler).

(** Modelled from the spec: [vmConvert], defined outside vm.go; the
    conversion is "representation-level and need not inspect context
    beyond the resolved numeric width": it reads the VM, may update the
    context it is handed, and returns a value and an error. *)
Variable vmConvert :
  VM opHandler -> execContext -> value -> valueType ->
  execContext * (value * option Error).

(** The largest length the run time accepts for a slice of bytes. *)
Variable maxAlloc : Z.

(** [func (vm *VM) Lookup(absPath string) Entity] *)
Definition Lookup (vm : VM opHandler) (absPath : string) : option Entity :=
  match absPath with
  | "" => None
  | String c rest =>
      if negb (Ascii.eqb c "\"%char) then None
      else if (String.length absPath =? 1)%nat then Some (rootNS vm)
      else scopeFindRelative (rootNS vm) rest
  end.

(** [func (vm *VM) Visit(entType EntityType, visitorFn Visitor)] *)
Definition Visit {S} (vm : VM opHandler) (entType : EntityType)
    (visitorFn : Visitor S) : M S unit :=
  scopeVisit 0 (rootNS vm) entType visitorFn.

(* =================================================================== *)
(** ** The static initialisation pass: [checkEntities] *)
(* =================================================================== *)

(** What the visitor closure of [checkEntities] can reach: the VM and
    the two captured locals [err] and [ctx]. *)
Record checkState : Type := mkCheck {
  chk_vm : VM opHandler;
  chk_err : option Error;
  chk_ctx : execContext
}.

Definition uint64 (n : Z) : Z := n mod 2 ^ 64.

(** [v.(uint64)]: panics unless the dynamic type is uint64. *)
Definition assertUint64 {S} (v : value) : M S Z :=
  match v with
  | VUint64 n => ret n
  | _ => panic "interface conversion: interface {} is not uint64"
  end.

(** [make([]byte, n)] *)
Definition make_bytes {S} (n : Z) : M S (list byte) :=
  if n <=? maxAlloc then ret (repeat x00 (Z.to_nat n))
  else panic "makeslice: len out of range".

(** [append(s, t...)] *)
Definition append_bytes {S} (s t : list byte) : M S (list byte) :=
  if Z.of_nat (length s + length t) <=? maxAlloc then ret (s ++ t)
  else panic "growslice: len out of range".

(** [size, err = vmConvert(ctx, typ.size, valueTypeInteger)]: the call,
    and the assignment to the captured [err]. *)
Definition convertSize (size : value) : M checkState value :=
  emit (EvConvert size valueTypeInteger) ;;;
  fun s =>
    let '(ctx', (v, err)) :=
      vmConvert (chk_vm s) (chk_ctx s) size valueTypeInteger in
    mkOut (mkCheck (chk_vm s) err ctx') [] (Val v).

(** [typ.data = data], for the buffer object at [addr]. *)
Definition with_data (addr : N) (data : list byte) (s : checkState) : checkState :=
  mkCheck (set_data addr data (chk_vm s)) (chk_err s) (chk_ctx s).

Definition store_data (addr : N) (data : list byte) : M checkState unit :=
  modify (with_data addr data).

(** The [case *bufferEntity] of the visitor. *)
Definition initBuffer (addr : N) (size : value) : M checkState bool :=
  size <- convertSize size ;;
  err <- gets chk_err ;;
  match err with
  | Some _ => ret false
  | None =>
      sizeAsInt <- assertUint64 size ;;
      data <- gets (fun s => heap (chk_vm s) !! addr) ;;
      match data with
      | None =>
          n <- assertUint64 size ;;
          fresh <- make_bytes n ;;
          store_data addr fresh
      | Some _ => ret tt
      end ;;;
      data <- gets (fun s => default [] (heap (chk_vm s) !! addr)) ;;
      let dataLen := uint64 (Z.of_nat (length data)) in
      (if dataLen <? sizeAsInt then
         padding <- make_bytes (uint64 (sizeAsInt - dataLen)) ;;
         grown <- append_bytes data padding ;;
         store_data addr grown
       else ret tt) ;;;
      ret true
  end.

(** "Peek into named entities that wrap other entities". *)
Definition peekNamed (ent : Entity) : M checkState Entity :=
  match ent with
  | namedEntity _ _ args =>
      arg0 <- index args 0 ;;
      match arg0 with
      | VEntity nestedEnt => ret nestedEnt
      | _ => ret ent
      end
  | _ => ret ent
  end.

(** The function literal handed to [vm.Visit] by [checkEntities]. *)
Definition checkVisitor : Visitor checkState :=
  fun depth ent =>
    emit (EvVisitor depth ent) ;;;
    err <- gets chk_err ;;
    match err with
    | Some _ => ret false
    | None =>
        ent <- peekNamed ent ;;
        match ent with
        | Method _ _ _ _ => ret false
        | bufferEntity _ addr size => initBuffer addr size
        | _ => ret true
        end
    end.

(** [func (vm *VM) checkEntities() *Error] *)
Definition checkEntities : M (VM opHandler) (option Error) :=
  fun vm =>
    let o := Visit vm EntityTypeAny checkVisitor
               (mkCheck vm None newExecContext) in
    mkOut (chk_vm (st o)) (log o)
          match res o with
          | Val _ => Val (chk_err (st o))
          | Panic msg => Panic msg
          end.

(* =================================================================== *)
(** ** The life cycle: [NewVM] and [Init] *)
(* =================================================================== *)

(** [func defaultACPIScopes() ScopeEntity] *)
Definition defaultACPIScopes : Entity :=
  let rootNS := scopeEntity opScope "\" [] in
  let rootNS := Append rootNS (scopeEntity opScope "_GPE" []) in
  let rootNS := Append rootNS (scopeEntity opScope "_PR_" []) in
  let rootNS := Append rootNS (scopeEntity opScope "_SB_" []) in
  let rootNS := Append rootNS (scopeEntity opScope "_SI_" []) in
  let rootNS := Append rootNS (scopeEntity opScope "_TZ_" []) in
  rootNS.

(** [func NewVM(errWriter io.Writer, resolver table.Resolver) *VM]: the
    fields not listed in the literal have their zero value. *)
Definition NewVM (resolver : string -> option SDTHeader) : VM opHandler :=
  let root := defaultACPIScopes in
  {| rootNS := root;
     tableResolver := resolver;
     tableParser := NewParser root;
     heap := ∅;
     sizeOfIntInBits := 0;
     jumpTable := fun _ => None |}.

(** [vm.tableResolver.LookupTable(tableName)] *)
Definition LookupTable (tableName : string) : M (VM opHandler) (option SDTHeader) :=
  emit (EvLookupTable tableName) ;;;
  gets (fun vm => tableResolver vm tableName).

(** [vm.tableParser.ParseAML(tableHandle, tableName, header)] *)
Definition ParseAML (tableHandle : Z) (tableName : string) (header : SDTHeader)
  : M (VM opHandler) (option kernelError) :=
  emit (EvParseAML tableHandle tableName header) ;;;
  fun vm =>
    let (ns, err) :=
      tableParser vm tableHandle tableName header (rootNS vm, heap vm) in
    mkOut (set_namespace ns vm) [] (Val err).

Definition uint8 (n : Z) : Z := n mod 2 ^ 8.

(** The [for ... range] loop of [Init] over the table names, each with
    its index; [Some e] is the early [return] of [Init]. *)
Fixpoint loadTables (tables : list (Z * string))
  : M (VM opHandler) (option Error) :=
  match tables with
  | [] => ret None
  | (tableHandle, tableName) :: tables' =>
      header <- LookupTable tableName ;;
      match header with
      | None => loadTables tables'
      | Some header =>
          perr <- ParseAML (uint8 (tableHandle + 1)) tableName header ;;
          match perr with
          | Some err =>
              ret (Some (mkError (Module_ err +:+ ": " +:+ kernelError_Error err)))
          | None =>
              (if String.eqb tableName "DSDT" then
                 modify (set_sizeOfIntInBits 32) ;;;
                 if 2 <=? Revision header
                 then modify (set_sizeOfIntInBits 64)
                 else ret tt
               else ret tt) ;;;
              loadTables tables'
          end
      end
  end.

(** [func (vm *VM) Init() *Error] *)
Definition Init : M (VM opHandler) (option Error) :=
  early <- loadTables [(0, "DSDT"); (1, "SSDT")] ;;
  match early with
  | Some e => ret (Some e)
  | None =>
      emit EvPopulateJumpTable ;;;
      modify (fun vm => set_jumpTable (populateJumpTable (jumpTable vm)) vm) ;;;
      checkEntities
  end.

End Machine.

Arguments Lookup {opHandler} vm absPath.
Arguments Visit {opHandler S} vm entType visitorFn.
Arguments checkState opHandler : clear implicits.
Arguments mkCheck {opHandler} chk_vm chk_err chk_ctx.
Arguments chk_vm {opHandler} c.
Arguments chk_err {opHandler} c.
Arguments chk_ctx {opHandler} c.
Arguments convertSize {opHandler} vmConvert size.
Arguments with_data {opHandler} addr data s.
Arguments store_data {opHandler} addr data.
Arguments initBuffer {opHandler} vmConvert maxAlloc addr size.
Arguments peekNamed {opHandler} ent.
Arguments checkVisitor {opHandler} vmConvert maxAlloc.
Arguments checkEntities {opHandler} vmConvert maxAlloc.
Arguments NewVM {opHandler} opScope NewParser resolver.
Arguments LookupTable {opHandler} tableName.
Arguments ParseAML {opHandler} tableHandle tableName header.
Arguments loadTables {opHandler} tables.
Arguments Init {opHandler} populateJumpTable vmConvert maxAlloc.

(* ===================================================================== *)
(** ** Vocabulary of the properties *)
(* ===================================================================== *)

(** The entity the visitor of [checkEntities] classifies: [ent] after the
    one-level unwrap of a named entity; [None] when the unwrap panics. *)
Definition unwrapped (ent : Entity) : option Entity :=
  match ent with
  | namedEntity _ _ args =>
      match nth_error args 0 with
      | Some (VEntity nestedEnt) => Some nestedEnt
      | Some _ => Some ent
      | None => None
      end
  | _ => Some ent
  end.

(** The buffer object the visitor initialises when it is handed [ent]. *)
Definition bufferAddr (ent : Entity) : option N :=
  match unwrapped ent with
  | Some (bufferEntity _ addr _) => Some addr
  | _ => None
  end.

(** Whether the visitor sees a method in [ent]. *)
Definition isMethod (ent : Entity) : bool :=
  match unwrapped ent with
  | Some (Method _ _ _ _) => true
  | _ => false
  end.

(** The entities of a namespace that lie outside every method body, in
    depth-first order, parents first. *)
Fixpoint staticOrder (ent : Entity) : list Entity :=
  ent :: match ent with
         | scopeEntity _ _ children => flat_map staticOrder children
         | _ => []
         end.

(** The calls of the visitor recorded in a log, in order. *)
Fixpoint visitsOf (l : list Event) : list (Z * Entity) :=
  match l with
  | [] => []
  | EvVisitor depth ent :: l' => (depth, ent) :: visitsOf l'
  | _ :: l' => visitsOf l'
  end.

Definition visited (depth_ent : Z * Entity) : Event :=
  EvVisitor (fst depth_ent) (snd depth_ent).

(** The visitor of [checkEntities] called on each entity of a list, one
    call after the other. *)
Fixpoint visitEach {H}
    (vmConvert : VM H -> execContext -> value -> valueType ->
                 execContext * (value * option Error))
    (maxAlloc : Z) (visits : list (Z * Entity)) : M (checkState H) unit :=
  match visits with
  | [] => ret tt
  | (depth, ent) :: visits' =>
      checkVisitor vmConvert maxAlloc depth ent ;;;
      visitEach vmConvert maxAlloc visits'
  end.

(** The integer width that the revision of the DSDT selects. *)
Definition widthFor (header : SDTHeader) : Z :=
  if 2 <=? Revision header then 64 else 32.

(** The VM once [Init] has dealt with a table it could parse. *)
Definition tableLoaded {H} (tableName : string) (header : SDTHeader)
    (ns : Entity * Heap) (vm : VM H) : VM H :=
  if String.eqb tableName "DSDT"
  then set_sizeOfIntInBits (widthFor header) (set_namespace ns vm)
  else set_namespace ns vm.

(** The VMs that [vm0] becomes through further calls of [Init] and of
    [checkEntities], the two functions of vm.go that write to the VM. *)
Inductive laterState {H}
    (populateJumpTable : (opcode -> option H) -> (opcode -> option H))
    (vmConvert : VM H -> execContext -> value -> valueType ->
                 execContext * (value * option Error))
    (maxAlloc : Z) (vm0 : VM H) : VM H -> Prop :=
| later_now : laterState populateJumpTable vmConvert maxAlloc vm0 vm0
| later_Init vm :
    laterState populateJumpTable vmConvert maxAlloc vm0 vm ->
    laterState populateJumpTable vmConvert maxAlloc vm0
      (st (Init populateJumpTable vmConvert maxAlloc vm))
| later_checkEntities vm :
    laterState populateJumpTable vmConvert maxAlloc vm0 vm ->
    laterState populateJumpTable vmConvert maxAlloc vm0
      (st (checkEntities vmConvert maxAlloc vm)).

(** The message of the error [Init] makes of a parser error. *)
Definition decodeFailure (err : kernelError) : Error :=
  mkError (Module_ err +:+ ": " +:+ Message err).

(** The state in which [checkEntities] starts its walk. *)
Definition passStart {H} (vm : VM H) : checkState H :=
  mkCheck vm None newExecContext.

(** The calls of the visitor that [checkEntities] makes on [vm]. *)
Definition passVisits {H}
    (vmConvert : VM H -> execContext -> value -> valueType ->
                 execContext * (value * option Error))
    (maxAlloc : Z) (vm : VM H) : list (Z * Entity) :=
  visitsOf (log (checkEntities vmConvert maxAlloc vm)).

(** The payload of the buffer at [addr]; a nil slice has no bytes. *)
Definition payload {H} (vm : VM H) (addr : N) : list byte :=
  default [] (heap vm !! addr).

(** The entities of a namespace that lie outside every method body, each
    with its depth below the root of the walk: [staticOrder] with the
    depths the visitor is handed. *)
Fixpoint staticVisits (depth : Z) (ent : Entity) : list (Z * Entity) :=
  (depth, ent) :: match ent with
                  | scopeEntity _ _ children =>
                      flat_map (staticVisits (depth + 1)) children
                  | _ => []
                  end.

(** Every entity of a namespace, the bodies of its methods included. *)
Fixpoint allEntities (ent : Entity) : list Entity :=
  ent :: match ent with
         | scopeEntity _ _ children
         | Method _ _ _ children => flat_map allEntities children
         | _ => []
         end.

(** The size operand of the buffer object at [addr] evaluates to [s]:
    each time the walk over the entities outside the method bodies comes
    to that buffer, bare or named, the converter, called on the size
    operand in the state that the calls of the visitor made so far have
    left, returns the uint64 [s] and no error. *)
Definition sizeEvaluatesTo {H}
    (vmConvert : VM H -> execContext -> value -> valueType ->
                 execContext * (value * option Error))
    (maxAlloc : Z) (vm : VM H) (addr : N) (s : Z) : Prop :=
  forall pre depth ent post op size,
    staticVisits 0 (rootNS vm) = pre ++ (depth, ent) :: post ->
    unwrapped ent = Some (bufferEntity op addr size) ->
    exists ctx',
      vmConvert (chk_vm (st (visitEach vmConvert maxAlloc pre (passStart vm))))
                (chk_ctx (st (visitEach vmConvert maxAlloc pre (passStart vm))))
                size valueTypeInteger = (ctx', (VUint64 s, None)).

(** [vm'] differs from [vm] in the heap of payloads at most. *)
Definition sameButHeap {H} (vm vm' : VM H) : Prop :=
  tableResolver vm' = tableResolver vm /\ tableParser vm' = tableParser vm /\
  rootNS vm' = rootNS vm /\ sizeOfIntInBits vm' = sizeOfIntInBits vm /\
  jumpTable vm' = jumpTable vm.

(** [vm'] differs from [vm] at most in the payloads of the buffers whose
    address satisfies [P]. *)
Definition touchesOnly {H} (P : N -> Prop) (vm vm' : VM H) : Prop :=
  sameButHeap vm vm' /\ forall a, ~ P a -> heap vm' !! a = heap vm !! a.

(** The buffer objects that a list of visitor calls can initialise. *)
Definition targets (visits : list (Z * Entity)) (a : N) : Prop :=
  exists depth_ent, In depth_ent visits /\ bufferAddr (snd depth_ent) = Some a.

(** The slice [data] zero-padded up to the length [s]. *)
Definition padded (data : list byte) (s : Z) : list byte :=
  data ++ repeat x00 (Z.to_nat (s - Z.of_nat (length data))).

(** The loop of [execBlock] as a recursion on the instructions that are
    left: the signal is tested, the first instruction is dispatched, and
    an error ends the run. *)
Fixpoint runList {World} (vm : VM (opHandler World)) (instrList : list Entity)
  : M (execState World) (option Error) :=
  match instrList with
  | [] => ret None
  | instr :: instrList' =>
      cf <- gets (fun s => ctrlFlow (ctx s)) ;;
      if ctrlFlowType_eqb cf ctrlFlowTypeNextOpcode
      then
        err <- dispatch vm instr ;;
        match err with
        | Some e => ret (Some e)
        | None => runList vm instrList'
        end
      else ret None
  end.

(** One block after another: the second runs unless the first failed. *)
Definition thenBlock {World} (vm : VM (opHandler World)) (first second : Entity)
  : M (execState World) (option Error) :=
  err <- execBlock vm first ;;
  match err with
  | Some e => ret (Some e)
  | None => execBlock vm second
  end.

(** The handler of [instr] exists, and from a state whose signal is
    NextOpcode it returns without an error and keeps the signal. *)
Definition wellBehaved {World} (vm : VM (opHandler World)) (instr : Entity) : Prop :=
  exists handler,
    jumpTable vm (getOpcode instr) = Some handler /\
    forall s,
      ctrlFlow (ctx s) = ctrlFlowTypeNextOpcode ->
      exists s',
        handler instr s = (s', Val None) /\
        ctrlFlow (ctx s') = ctrlFlowTypeNextOpcode.

(** A payload cell [new] that comes from [old] by appending zero bytes: a
    slice keeps its bytes, a nil slice stays nil or becomes all zeros. *)
Definition cellGrows (old new : option (list byte)) : Prop :=
  match old with
  | Some data => exists n, new = Some (data ++ repeat x00 n)
  | None => new = None \/ exists n, new = Some (repeat x00 n)
  end.

Definition heapGrows {H} (vm vm' : VM H) : Prop :=
  forall a, cellGrows (heap vm !! a) (heap vm' !! a).

(** No payload of the VM is longer than [maxAlloc]. *)
Definition payloadsWithin {H} (maxAlloc : Z) (vm : VM H) : Prop :=
  forall a, Z.of_nat (length (payload vm a)) <= maxAlloc.

(** Every named entity outside the method bodies has an operand. *)
Definition operandsPresent (root : Entity) : Prop :=
  forall ent, In ent (staticOrder root) -> unwrapped ent <> None.

(** Whenever the converter accepts the size of a buffer outside the
    method bodies, it returns a uint64 that a slice can have as length. *)
Definition sizesFit {H}
    (vmConvert : VM H -> execContext -> value -> valueType ->
                 execContext * (value * option Error))
    (maxAlloc : Z) (root : Entity) : Prop :=
  forall ent op addr size,
    In ent (staticOrder root) ->
    unwrapped ent = Some (bufferEntity op addr size) ->
    forall vm ctx ctx' v,
      vmConvert vm ctx size valueTypeInteger = (ctx', (v, None)) ->
      exists s, v = VUint64 s /\ 0 <= s <= maxAlloc.

(* ===================================================================== *)
(** ** Sample collaborators and namespaces *)
(* ===================================================================== *)

(** A converter that accepts integers only and rejects the empty string
    the way vm.go's error table names it. *)
Definition sampleConvert {H} (vm : VM H) (ctx : execContext) (arg : value)
    (toType : valueType) : execContext * (value * option Error) :=
  match arg, toType with
  | VUint64 n, valueTypeInteger => (ctx, (VUint64 n, None))
  | VString "", _ => (ctx, (VNil, Some errConversionFromEmptyString))
  | _, _ => (ctx, (VNil, Some (mkError "vmConvert: conversion not supported")))
  end.

(** A parser that decodes every table to the namespace [ns]. *)
Definition parserYielding (ns : Entity * Heap) : Parser :=
  fun _ _ _ _ => (ns, None).

(** A parser that leaves the namespace alone. *)
Definition idleParser : Parser := fun _ _ _ ns => (ns, None).

(** A parser that rejects every table. *)
Definition failingParser : Parser :=
  fun _ _ _ ns => (ns, Some (mkKernelError "acpi_aml_parser" "unexpected end of stream")).

Definition noTables : string -> option SDTHeader := fun _ => None.

Definition onlyDSDT (revision : Z) : string -> option SDTHeader :=
  fun tableName =>
    if String.eqb tableName "DSDT" then Some (mkHeader revision) else None.

Definition bothTables (revision : Z) : string -> option SDTHeader :=
  fun tableName =>
    if String.eqb tableName "DSDT" then Some (mkHeader revision)
    else if String.eqb tableName "SSDT" then Some (mkHeader 1)
    else None.

(** A jump table builder that installs the same handler everywhere. *)
Definition populateWith {H} (h : H) : (opcode -> option H) -> (opcode -> option H) :=
  fun _ _ => Some h.

(** Handlers of a toy instruction set over a counter: opcode 1 adds one,
    opcode 2 signals Break, opcode 3 fails. *)
Definition withCtrlFlow (cf : ctrlFlowType) (c : execContext) : execContext :=
  mkCtx (localArg c) (methodArg c) cf (retVal c).

Definition toyTable : opcode -> option (opHandler nat) :=
  fun op =>
    if op =? 1 then Some (fun _ s => (mkExec (ctx s) (S (world s)), Val None))
    else if op =? 2 then
      Some (fun _ s => (mkExec (withCtrlFlow ctrlFlowTypeBreak (ctx s)) (world s), Val None))
    else if op =? 3 then Some (fun _ s => (s, Val (Some (mkError "vm: division by zero"))))
    else None.

Definition toyVM : VM (opHandler nat) :=
  mkVM noTables idleParser (scopeEntity 0 "\" []) ∅ 64 toyTable.

Definition toyBlock (ops : list opcode) : Entity :=
  scopeEntity 0 "BLK_" (map (fun op => unnamedEntity op []) ops).

(** A namespace with a named buffer that has a two-byte initialiser
    (address 1, declared size 4), a method whose body holds a buffer
    (address 2), and a buffer without initialiser (address 3, size 3). *)
Definition opBuffer : opcode := 17.
Definition opName : opcode := 8.
Definition opMethod : opcode := 20.

Definition sampleMethod : Entity :=
  Method opMethod "MTH0" 0 [bufferEntity opBuffer 2 (VUint64 8)].

Definition sampleRoot : Entity :=
  scopeEntity 16 "\"
    [scopeEntity 16 "_SB_"
       [namedEntity opName "BUF0" [VEntity (bufferEntity opBuffer 1 (VUint64 4))];
        sampleMethod;
        bufferEntity opBuffer 3 (VUint64 3)]].

Definition sampleHeap : Heap := {[ 1%N := [x01; x02] ]}.

Definition sampleVM : VM unit :=
  mkVM noTables idleParser sampleRoot sampleHeap 64 (fun _ => None).

(** The same namespace followed by a buffer whose size is the empty
    string, and by one more buffer (address 5). *)
Definition brokenRoot : Entity :=
  scopeEntity 16 "\"
    [bufferEntity opBuffer 3 (VUint64 3);
     scopeEntity 16 "_SB_" [bufferEntity opBuffer 4 (VString "")];
     bufferEntity opBuffer 5 (VUint64 2)].

Definition brokenVM : VM unit :=
  mkVM noTables idleParser brokenRoot sampleHeap 64 (fun _ => None).

(** A namespace with a named object that has no operand besides its
    name. *)
Definition bareNamedRoot : Entity :=
  scopeEntity 16 "\" [namedEntity 2 "EVT0" []].

Definition bareNamedVM : VM unit :=
  mkVM noTables idleParser bareNamedRoot ∅ 64 (fun _ => None).

(** A namespace with a buffer whose declared size is the largest uint64
    (the AML constant Ones), without initialiser. *)
Definition hugeBufferRoot : Entity :=
  scopeEntity 16 "\" [bufferEntity opBuffer 7 (VUint64 (2 ^ 64 - 1))].

Definition hugeBufferVM : VM unit :=
  mkVM noTables idleParser hugeBufferRoot ∅ 64 (fun _ => None).

(** The largest [int] of a 64-bit platform: no slice is longer. *)
Definition maxInt : Z := 2 ^ 63 - 1.

(** A block entered while a Break is pending. *)
Definition pendingBreak : execState nat :=
  mkExec (withCtrlFlow ctrlFlowTypeBreak newExecContext) 5%nat.

(** A VM fresh from [NewVM] whose resolver has no table. *)
Definition freshVM : VM unit := NewVM 16 (fun _ => idleParser) noTables.

(** A VM whose resolver has a DSDT of the given revision, decoded to the
    sample namespace. *)
Definition dsdtVM (revision : Z) : VM unit :=
  NewVM 16 (fun _ => parserYielding (sampleRoot, sampleHeap)) (onlyDSDT revision).

(** The VM once the tables its resolver finds have changed: the resolver
    is an interface behind the VM, and what its [LookupTable] returns
    from one call to the next is decided outside vm.go. *)
Definition withResolver {H} (resolver : string -> option SDTHeader) (vm : VM H)
  : VM H :=
  mkVM resolver (tableParser vm) (rootNS vm) (heap vm)
       (sizeOfIntInBits vm) (jumpTable vm).

(** A VM whose parser rejects the tables it is handed. *)
Definition rejectingVM : VM unit :=
  NewVM 16 (fun _ => failingParser) (bothTables 1).

(** A VM whose DSDT decodes to the namespace with the bare named object. *)
Definition bareNamedDsdtVM : VM unit :=
  NewVM 16 (fun _ => parserYielding (bareNamedRoot, ∅)) (onlyDSDT 2).

(* ===================================================================== *)
(** * Properties *)
(* ===================================================================== *)

(** ** The interpreter loop *)

Section InterpreterFacts.

Context {World : Type}.
Implicit Types (vm : VM (opHandler World)) (s : execState World).

Lemma ctrlFlowType_eqb_eq (a b : ctrlFlowType) :
  ctrlFlowType_eqb a b = true <-> a = b.
Proof. destruct a, b; simpl; split; congruence. Qed.

Lemma ctrlFlowType_eqb_neq (a b : ctrlFlowType) :
  ctrlFlowType_eqb a b = false <-> a <> b.
Proof. destruct a, b; simpl; split; congruence. Qed.

Lemma straight_snoc vm done instr handler s0 s s1 :
  straight vm done s0 s ->
  ctrlFlow (ctx s) = ctrlFlowTypeNextOpcode ->
  jumpTable vm (getOpcode instr) = Some handler ->
  handler instr s = (s1, Val None) ->
  straight vm (done ++ [instr]) s0 s1.
Proof.
  induction 1 as [s|i l h s s' s'' Hcf Hjt Hh Hrun IH]; intros Hnext Hsome Hrun'.
  - simpl. eapply straight_cons; eauto. constructor.
  - simpl. eapply straight_cons; eauto.
Qed.

(** One iteration of the loop. *)
Lemma execLoop_step vm instrList numInstr fuel i s :
  execLoop vm instrList numInstr (S fuel) i s =
  if (i <? numInstr)%nat
     && ctrlFlowType_eqb (ctrlFlow (ctx s)) ctrlFlowTypeNextOpcode
  then
    match nth_error instrList i with
    | None => mkOut s [] (Panic "index out of range")
    | Some instr =>
        match jumpTable vm (getOpcode instr) with
        | None => mkOut s [] (Panic "invalid jump table entry")
        | Some handler =>
            match handler instr s with
            | (s', Val None) =>
                after [instr] (execLoop vm instrList numInstr fuel (S i) s')
            | (s', Val (Some e)) => mkOut s' [dispatched instr] (Val (Some e))
            | (s', Panic msg) => mkOut s' [dispatched instr] (Panic msg)
            end
        end
    end
  else mkOut s [] (Val None).
Proof.
  simpl. unfold bind at 1. unfold gets at 1. simpl.
  destruct (_ && _); [|reflexivity].
  unfold bind at 1. unfold index.
  destruct (nth_error instrList i) as [instr|]; [|reflexivity].
  unfold ret at 1. simpl. unfold bind at 1. unfold dispatch.
  destruct (jumpTable vm (getOpcode instr)) as [handler|]; [|reflexivity].
  destruct (handler instr s) as [s' [[e|]|msg]]; try reflexivity.
  unfold after, prepend. simpl.
  by destruct (execLoop vm instrList numInstr fuel (S i) s').
Qed.

Lemma after_app done instr (o : Out (execState World) (option Error)) :
  after done (after [instr] o) = after (done ++ [instr]) o.
Proof. unfold after, prepend. simpl. by rewrite map_app, <- app_assoc. Qed.

Lemma execLoop_outcome vm instrList fuel :
  forall done rest s0 s,
    instrList = done ++ rest ->
    (length rest <= fuel)%nat ->
    straight vm done s0 s ->
    exists done' rest' s1,
      instrList = done' ++ rest' /\
      straight vm done' s0 s1 /\
      blockStop vm done' rest' s1
        (after done
           (execLoop vm instrList (length instrList) fuel (length done) s)).
Proof.
  induction fuel as [|fuel IH]; intros done rest s0 s Heq Hlen Hrun.
  - destruct rest; [|simpl in Hlen; lia].
    exists done, [], s. split; [exact Heq|]. split; [exact Hrun|].
    apply stop_end; [reflexivity|].
    unfold after, prepend; simpl. by rewrite app_nil_r.
  - rewrite execLoop_step.
    destruct rest as [|instr rest'].
    + exists done, [], s. split; [exact Heq|]. split; [exact Hrun|].
      apply stop_end; [reflexivity|].
      assert (Hlt : (length done <? length instrList)%nat = false).
      { apply Nat.ltb_ge. rewrite Heq, app_nil_r. lia. }
      rewrite Hlt. unfold after, prepend; simpl. by rewrite app_nil_r.
    + assert (Hlt : (length done <? length instrList)%nat = true).
      { apply Nat.ltb_lt. rewrite Heq, length_app. simpl. lia. }
      assert (Hnth : nth_error instrList (length done) = Some instr).
      { rewrite Heq, nth_error_app2 by lia. by rewrite Nat.sub_diag. }
      rewrite Hlt, Hnth. simpl andb.
      destruct (ctrlFlowType_eqb (ctrlFlow (ctx s)) ctrlFlowTypeNextOpcode) eqn:Hcf.
      * apply ctrlFlowType_eqb_eq in Hcf.
        destruct (jumpTable vm (getOpcode instr)) as [handler|] eqn:Hjt.
        -- destruct (handler instr s) as [s' [[e|]|msg]] eqn:Hh.
           ++ exists done, (instr :: rest'), s.
              split; [exact Heq|]. split; [exact Hrun|].
              eapply stop_error; eauto.
              unfold after, prepend; simpl. by rewrite map_app.
           ++ assert (Hrun' : straight vm (done ++ [instr]) s0 s')
                by (eapply straight_snoc; eauto).
              destruct (IH (done ++ [instr]) rest' s0 s') as (d & r & s1 & H1 & H2 & H3).
              { by rewrite <- app_assoc. }
              { simpl in Hlen. lia. }
              { exact Hrun'. }
              exists d, r, s1. split; [exact H1|]. split; [exact H2|].
              rewrite after_app.
              rewrite length_app, Nat.add_1_r in H3. exact H3.
           ++ exists done, (instr :: rest'), s.
              split; [exact Heq|]. split; [exact Hrun|].
              eapply stop_handler_panic; eauto.
              unfold after, prepend; simpl. by rewrite map_app.
        -- exists done, (instr :: rest'), s.
           split; [exact Heq|]. split; [exact Hrun|].
           eapply stop_no_handler; eauto.
           unfold after, prepend; simpl. by rewrite app_nil_r.
      * apply ctrlFlowType_eqb_neq in Hcf.
        exists done, (instr :: rest'), s.
        split; [exact Heq|]. split; [exact Hrun|].
        apply stop_signal; [exact Hcf|].
        unfold after, prepend; simpl. by rewrite app_nil_r.
Qed.

(** The loop never needs more iterations than there are instructions
    left: any two such bounds give the same outcome. *)
Lemma execLoop_fuel vm instrList fuel :
  forall fuel' i s,
    (length instrList - i <= fuel)%nat ->
    (length instrList - i <= fuel')%nat ->
    execLoop vm instrList (length instrList) fuel i s =
    execLoop vm instrList (length instrList) fuel' i s.
Proof.
  induction fuel as [|fuel IH]; intros fuel' i s Hf Hf'.
  - assert (Hlt : (i <? length instrList)%nat = false) by (apply Nat.ltb_ge; lia).
    destruct fuel' as [|fuel']; [reflexivity|].
    rewrite execLoop_step, Hlt. reflexivity.
  - destruct fuel' as [|fuel'].
    + assert (Hlt : (i <? length instrList)%nat = false) by (apply Nat.ltb_ge; lia).
      rewrite execLoop_step, Hlt. reflexivity.
    + rewrite !execLoop_step.
      destruct (_ && _); [|reflexivity].
      destruct (nth_error instrList i) as [instr|]; [|reflexivity].
      destruct (jumpTable vm (getOpcode instr)) as [handler|]; [|reflexivity].
      destruct (handler instr s) as [s' [[e|]|msg]]; try reflexivity.
      rewrite (IH fuel' (S i) s'); [reflexivity|lia|lia].
Qed.

Lemma after_nil (o : Out (execState World) (option Error)) : after [] o = o.
Proof. by destruct o. Qed.

(** C1.  [execBlock] executes the children of the block one at a time,
    in list order, each through the jump-table entry of its opcode and
    each started only while the control-flow signal is NextOpcode.  It
    stops, returning nil, at the end of the list or as soon as the
    signal is no longer NextOpcode; it stops with the error of the
    first handler that reports one.  In either case the instructions
    after the stopping point are not executed: the final state is the
    one the last executed handler left and the dispatch log lists the
    executed instructions only.  (The two remaining outcomes are the
    run-time panics of a handler or of a missing jump-table entry.) *)
Theorem execBlock_sequencing vm block s :
  exists done rest s1,
    Children block = done ++ rest /\
    straight vm done s s1 /\
    blockStop vm done rest s1 (execBlock vm block s).
Proof.
  unfold execBlock.
  destruct (execLoop_outcome vm (Children block) (length (Children block))
              [] (Children block) s s) as (d & r & s1 & H1 & H2 & H3).
  - reflexivity.
  - lia.
  - constructor.
  - rewrite after_nil in H3. simpl in H3. by exists d, r, s1.
Qed.

(** C10.  Entered with a control-flow signal other than NextOpcode,
    [execBlock] dispatches no instruction, returns nil, and leaves the
    context (locals, arguments, signal, carried value) and everything
    else as it found them, whatever the block. *)
Theorem execBlock_pending_signal vm block s :
  ctrlFlow (ctx s) <> ctrlFlowTypeNextOpcode ->
  execBlock vm block s = mkOut s [] (Val None).
Proof.
  intros Hcf. apply ctrlFlowType_eqb_neq in Hcf. unfold execBlock.
  destruct (length (Children block)) as [|n] eqn:Hn; [reflexivity|].
  rewrite execLoop_step, Hcf, andb_false_r. reflexivity.
Qed.

End InterpreterFacts.

(** A block entered under a pending Break: nothing runs. *)
Lemma execBlock_pending_signal_witness :
  ctrlFlow (ctx pendingBreak) <> ctrlFlowTypeNextOpcode /\
  execBlock toyVM (toyBlock [1; 1; 3]) pendingBreak = mkOut pendingBreak [] (Val None).
Proof.
  split; [simpl; discriminate|].
  apply (execBlock_pending_signal toyVM (toyBlock [1; 1; 3])).
  simpl; discriminate.
Defined.

(** A Break stops the block without an error; the fourth instruction is
    not executed. *)
Example execBlock_break :
  let o := execBlock toyVM (toyBlock [1; 1; 2; 1]) (mkExec newExecContext 0%nat) in
  res o = Val None /\ world (st o) = 2%nat /\
  ctrlFlow (ctx (st o)) = ctrlFlowTypeBreak /\ length (log o) = 3%nat.
Proof. repeat split. Qed.

(** An error stops the block; the third instruction is not executed. *)
Example execBlock_error :
  let o := execBlock toyVM (toyBlock [1; 3; 1]) (mkExec newExecContext 0%nat) in
  res o = Val (Some (mkError "vm: division by zero")) /\
  world (st o) = 1%nat /\ length (log o) = 2%nat.
Proof. repeat split. Qed.

(** ** Namespace lookup *)

Section LookupFacts.

Context {H : Type}.
Implicit Types (vm : VM H).

Lemma Lookup_empty vm : Lookup vm "" = None.
Proof. reflexivity. Qed.

Lemma Lookup_not_rooted vm c rest :
  c <> "\"%char -> Lookup vm (String c rest) = None.
Proof.
  intros Hc. unfold Lookup.
  destruct (Ascii.eqb c "\") eqn:E; [|reflexivity].
  apply Ascii.eqb_eq in E. contradiction.
Qed.

Lemma Lookup_root vm : Lookup vm "\" = Some (rootNS vm).
Proof. reflexivity. Qed.

Lemma Lookup_below_root vm rest :
  rest <> "" ->
  Lookup vm (String "\" rest) = scopeFindRelative (rootNS vm) rest.
Proof.
  intros Hrest. unfold Lookup.
  rewrite Ascii.eqb_refl. simpl.
  destruct rest as [|c rest']; [contradiction|reflexivity].
Qed.

(** A walk that meets a segment no child is named after finds nothing,
    whatever follows the segment. *)
Lemma walkSegments_unknown known :
  forall ns scope seg later,
    walkSegments ns known = Some scope ->
    findChild seg (Children scope) = None ->
    walkSegments ns (known ++ seg :: later) = None.
Proof.
  induction known as [|k known IH]; intros ns scope seg later Hwalk Hnone.
  - simpl in Hwalk. injection Hwalk as ->. simpl. by rewrite Hnone.
  - simpl in *. destruct (findChild k (Children ns)) as [child|]; [|discriminate].
    eapply IH; eauto.
Qed.

(** C4.  [Lookup] returns nil for the empty path and for a path whose
    first character is not the root separator; it returns the root
    scope for the one-character root path; any other path is resolved
    below the root by matching its segments one after the other, and
    the result is nil as soon as a segment names no child of the scope
    reached so far. *)
Theorem Lookup_resolution vm (absPath : string) :
  (absPath = "" -> Lookup vm absPath = None) /\
  (forall c rest,
      absPath = String c rest -> c <> "\"%char -> Lookup vm absPath = None) /\
  (absPath = "\" -> Lookup vm absPath = Some (rootNS vm)) /\
  (forall rest,
      absPath = String "\" rest -> rest <> "" ->
      Lookup vm absPath = scopeFindRelative (rootNS vm) rest /\
      forall known seg later scope,
        pathSegments rest = known ++ seg :: later ->
        walkSegments (rootNS vm) known = Some scope ->
        findChild seg (Children scope) = None ->
        Lookup vm absPath = None).
Proof.
  split; [intros ->; apply Lookup_empty|].
  split; [intros c rest -> Hc; by apply Lookup_not_rooted|].
  split; [intros ->; apply Lookup_root|].
  intros rest -> Hrest.
  split; [by apply Lookup_below_root|].
  intros known seg later scope Hsegs Hwalk Hnone.
  rewrite Lookup_below_root by exact Hrest.
  unfold scopeFindRelative. rewrite Hsegs.
  eapply walkSegments_unknown; eauto.
Qed.

End LookupFacts.

(** The four cases of [Lookup] on the sample namespace: the empty path, a
    path without the root separator, the root path, and a path whose
    second segment names no child of [_SB_]. *)
Lemma Lookup_resolution_witness :
  Lookup sampleVM "" = None /\
  Lookup sampleVM "_SB_" = None /\
  Lookup sampleVM "\" = Some sampleRoot /\
  Lookup sampleVM "\_SB_MTH1" = None.
Proof.
  split; [exact (proj1 (Lookup_resolution sampleVM "") eq_refl)|].
  split.
  { refine (proj1 (proj2 (Lookup_resolution sampleVM "_SB_")) _ _ eq_refl _).
    discriminate. }
  split; [exact (proj1 (proj2 (proj2 (Lookup_resolution sampleVM "\"))) eq_refl)|].
  refine (proj2 (proj2 (proj2 (proj2 (Lookup_resolution sampleVM "\_SB_MTH1")))
                   "_SB_MTH1" eq_refl _) ["_SB_"] "MTH1" [] _ eq_refl eq_refl eq_refl).
  discriminate.
Defined.

Example Lookup_finds_method : Lookup sampleVM "\_SB_MTH0" = Some sampleMethod.
Proof. reflexivity. Qed.


(** ** Laws of the monad *)

Lemma prepend_nil {S A} (o : Out S A) : prepend [] o = o.
Proof. by destruct o. Qed.

Lemma prepend_prepend {S A} l1 l2 (o : Out S A) :
  prepend l1 (prepend l2 o) = prepend (l1 ++ l2) o.
Proof. unfold prepend. simpl. by rewrite app_assoc. Qed.

Lemma bind_eq {S A B} (m : M S A) (k : A -> M S B) s :
  bind m k s =
  match res (m s) with
  | Val a => prepend (log (m s)) (k a (st (m s)))
  | Panic msg => mkOut (st (m s)) (log (m s)) (Panic msg)
  end.
Proof.
  unfold bind, prepend. destruct (m s) as [s1 l1 [a|msg]]; simpl; [|reflexivity].
  by destruct (k a s1).
Qed.

Lemma bind_ret {S A B} (a : A) (k : A -> M S B) s : bind (ret a) k s = k a s.
Proof. unfold bind, ret. by destruct (k a s). Qed.

Lemma bind_gets {S A B} (f : S -> A) (k : A -> M S B) s :
  bind (gets f) k s = k (f s) s.
Proof. unfold bind, gets. by destruct (k (f s) s). Qed.

Lemma bind_modify {S B} (f : S -> S) (k : unit -> M S B) s :
  bind (modify f) k s = k tt (f s).
Proof. unfold bind, modify. by destruct (k tt (f s)). Qed.

Lemma bind_emit {S B} (e : Event) (k : unit -> M S B) s :
  bind (emit e) k s = prepend [e] (k tt s).
Proof. unfold bind, emit, prepend. by destruct (k tt s). Qed.

Lemma bind_panic {S A B} msg (k : A -> M S B) s :
  bind (panic msg) k s = mkOut s [] (Panic msg).
Proof. reflexivity. Qed.

Lemma bind_bind {S A B C} (m : M S A) (f : A -> M S B) (g : B -> M S C) s :
  bind (bind m f) g s = bind m (fun a => bind (f a) g) s.
Proof.
  unfold bind. destruct (m s) as [s1 l1 [a|msg]]; [|reflexivity].
  destruct (f a s1) as [s2 l2 [b|msg]]; [|reflexivity].
  destruct (g b s2) as [s3 l3 r]. by rewrite app_assoc.
Qed.

Ltac msimpl :=
  repeat (rewrite ?bind_bind, ?bind_ret, ?bind_gets, ?bind_modify,
            ?bind_emit, ?bind_panic;
          cbn [chk_vm chk_err chk_ctx st log res]).

(** ** The visitor of the static initialisation pass *)

Lemma uint64_small n : 0 <= n < 2 ^ 64 -> uint64 n = n.
Proof. intros. unfold uint64. by apply Z.mod_small. Qed.

Section VisitorFacts.

Context {H : Type}.
Variable vmConvert :
  VM H -> execContext -> value -> valueType -> execContext * (value * option Error).
Variable maxAlloc : Z.

Implicit Types (c : checkState H) (vm : VM H).

Lemma touchesOnly_refl P vm : touchesOnly P vm vm.
Proof. by repeat split. Qed.

Lemma touchesOnly_trans P vm1 vm2 vm3 :
  touchesOnly P vm1 vm2 -> touchesOnly P vm2 vm3 -> touchesOnly P vm1 vm3.
Proof.
  intros [(A1 & A2 & A3 & A4 & A5) HA] [(B1 & B2 & B3 & B4 & B5) HB].
  split; [repeat split; congruence|].
  intros a Ha. rewrite HB, HA by assumption. reflexivity.
Qed.

Lemma touchesOnly_mono (P Q : N -> Prop) vm vm' :
  (forall a, P a -> Q a) -> touchesOnly P vm vm' -> touchesOnly Q vm vm'.
Proof. intros HPQ [Hs Hh]. split; [exact Hs|]. intros a Ha. apply Hh. auto. Qed.

Lemma touchesOnly_set_data (P : N -> Prop) addr data vm :
  P addr -> touchesOnly P vm (set_data addr data vm).
Proof.
  intros HP. split; [by repeat split|].
  intros a Ha. unfold set_data; cbn [heap].
  apply lookup_insert_ne. intros ->. contradiction.
Qed.

Lemma peekNamed_eq ent c :
  peekNamed ent c =
  match unwrapped ent with
  | Some e => mkOut c [] (Val e)
  | None => mkOut c [] (Panic "index out of range")
  end.
Proof.
  destruct ent as [| |op name args| |]; try reflexivity.
  unfold peekNamed, unwrapped, index.
  destruct (nth_error args 0) as [[]|]; reflexivity.
Qed.

(** The visitor, case by case. *)
Lemma checkVisitor_eq depth ent c :
  checkVisitor vmConvert maxAlloc depth ent c =
  prepend [EvVisitor depth ent]
    match chk_err c with
    | Some _ => mkOut c [] (Val false)
    | None =>
        match unwrapped ent with
        | None => mkOut c [] (Panic "index out of range")
        | Some (Method _ _ _ _) => mkOut c [] (Val false)
        | Some (bufferEntity _ addr size) => initBuffer vmConvert maxAlloc addr size c
        | Some _ => mkOut c [] (Val true)
        end
    end.
Proof.
  unfold checkVisitor. msimpl. f_equal.
  destruct (chk_err c) as [e|]; [reflexivity|].
  rewrite bind_eq, peekNamed_eq.
  destruct (unwrapped ent) as [[]|]; simpl; rewrite ?prepend_nil; reflexivity.
Qed.

Lemma convertSize_eq size c :
  convertSize vmConvert size c =
  let r := vmConvert (chk_vm c) (chk_ctx c) size valueTypeInteger in
  mkOut (mkCheck (chk_vm c) (snd (snd r)) (fst r))
        [EvConvert size valueTypeInteger] (Val (fst (snd r))).
Proof.
  unfold convertSize. msimpl.
  by destruct (vmConvert _ _ _ _) as [ctx' [v err]].
Qed.

Lemma bind_convertSize {B} size (k : value -> M (checkState H) B) c :
  bind (convertSize vmConvert size) k c =
  let r := vmConvert (chk_vm c) (chk_ctx c) size valueTypeInteger in
  prepend [EvConvert size valueTypeInteger]
    (k (fst (snd r)) (mkCheck (chk_vm c) (snd (snd r)) (fst r))).
Proof. rewrite bind_eq, convertSize_eq. reflexivity. Qed.

(** A failed evaluation of the size: the error is recorded, the buffer
    is left alone. *)
Lemma initBuffer_failed addr size c ctx' v e :
  vmConvert (chk_vm c) (chk_ctx c) size valueTypeInteger = (ctx', (v, Some e)) ->
  initBuffer vmConvert maxAlloc addr size c =
  mkOut (mkCheck (chk_vm c) (Some e) ctx') [EvConvert size valueTypeInteger] (Val false).
Proof.
  intros Hconv. unfold initBuffer. rewrite bind_convertSize, Hconv. msimpl.
  reflexivity.
Qed.

(** A size that is not a uint64: the type assertion panics. *)
Lemma initBuffer_not_integer addr size c ctx' v :
  vmConvert (chk_vm c) (chk_ctx c) size valueTypeInteger = (ctx', (v, None)) ->
  (forall s, v <> VUint64 s) ->
  initBuffer vmConvert maxAlloc addr size c =
  mkOut (mkCheck (chk_vm c) None ctx') [EvConvert size valueTypeInteger]
        (Panic "interface conversion: interface {} is not uint64").
Proof.
  intros Hconv Hv. unfold initBuffer. rewrite bind_convertSize, Hconv. msimpl.
  destruct v; try reflexivity. by destruct (Hv n).
Qed.

(** A size that evaluates to the uint64 [s]: every outcome. *)
Lemma initBuffer_sized addr size c ctx' s :
  vmConvert (chk_vm c) (chk_ctx c) size valueTypeInteger = (ctx', (VUint64 s, None)) ->
  0 <= s < 2 ^ 64 ->
  Z.of_nat (length (payload (chk_vm c) addr)) < 2 ^ 64 ->
  initBuffer vmConvert maxAlloc addr size c =
  prepend [EvConvert size valueTypeInteger]
    (let c1 := mkCheck (chk_vm c) None ctx' in
     match heap (chk_vm c) !! addr with
     | None =>
         if s <=? maxAlloc
         then mkOut (with_data addr (repeat x00 (Z.to_nat s)) c1) [] (Val true)
         else mkOut c1 [] (Panic "makeslice: len out of range")
     | Some data =>
         let dataLen := Z.of_nat (length data) in
         if dataLen <? s then
           if s - dataLen <=? maxAlloc then
             if s <=? maxAlloc
             then mkOut (with_data addr (padded data s) c1) [] (Val true)
             else mkOut c1 [] (Panic "growslice: len out of range")
           else mkOut c1 [] (Panic "makeslice: len out of range")
         else mkOut c1 [] (Val true)
     end).
Proof.
  intros Hconv Hs HL. unfold payload in HL.
  unfold initBuffer. rewrite bind_convertSize, Hconv. f_equal.
  cbn [fst snd assertUint64]. msimpl.
  destruct (heap (chk_vm c) !! addr) as [data|] eqn:Hdata;
    cbn [default from_option id] in *.
  - msimpl. rewrite Hdata. cbn [default from_option id].
    rewrite (uint64_small (Z.of_nat (length data))) by lia.
    destruct (Z.of_nat (length data) <? s) eqn:Hlt; [|by msimpl].
    apply Z.ltb_lt in Hlt. rewrite uint64_small by lia.
    unfold make_bytes.
    destruct (s - Z.of_nat (length data) <=? maxAlloc) eqn:Hmake; [|by msimpl].
    msimpl. unfold append_bytes. rewrite repeat_length.
    replace (Z.of_nat (length data + Z.to_nat (s - Z.of_nat (length data))))
      with s by lia.
    destruct (s <=? maxAlloc); by msimpl.
  - msimpl. unfold make_bytes.
    destruct (s <=? maxAlloc) eqn:Hmake; [|by msimpl].
    msimpl. unfold store_data. msimpl. unfold with_data, set_data at 1. cbn [heap chk_vm].
    rewrite lookup_insert_eq. cbn [default from_option id].
    rewrite repeat_length, Z2Nat.id by lia.
    rewrite uint64_small by lia. rewrite Z.ltb_irrefl. by msimpl.
Qed.

(** Whatever the size evaluates to, [initBuffer] calls the converter once
    and writes to the payload of its own buffer at most. *)
Lemma initBuffer_touches addr size c :
  touchesOnly (eq addr) (chk_vm c)
    (chk_vm (st (initBuffer vmConvert maxAlloc addr size c))) /\
  log (initBuffer vmConvert maxAlloc addr size c) = [EvConvert size valueTypeInteger].
Proof.
  unfold initBuffer. rewrite bind_convertSize.
  destruct (vmConvert _ _ _ _) as [ctx' [v [e|]]]; cbn [fst snd]; msimpl.
  { split; [apply touchesOnly_refl|reflexivity]. }
  destruct v; cbn [assertUint64]; msimpl;
    try (split; [apply touchesOnly_refl|reflexivity]).
  unfold make_bytes, append_bytes, store_data.
  repeat match goal with
         | |- context [match ?x with Some _ => _ | None => _ end] => destruct x; msimpl
         | |- context [if ?b then _ else _] => destruct b; msimpl
         end.
  all: split; [|reflexivity].
  all: cbn [prepend st ret with_data chk_vm].
  all: eauto using touchesOnly_refl, touchesOnly_set_data, touchesOnly_trans.
Qed.

End VisitorFacts.


(** ** The tree walk *)

(** Induction on a namespace through the children of its scopes. *)
Lemma Entity_children_ind (P : Entity -> Prop) :
  (forall op name children, Forall P children -> P (scopeEntity op name children)) ->
  (forall op name argCount children,
      Forall P children -> P (Method op name argCount children)) ->
  (forall op name args, P (namedEntity op name args)) ->
  (forall op addr size, P (bufferEntity op addr size)) ->
  (forall op args, P (unnamedEntity op args)) ->
  forall ent, P ent.
Proof.
  intros Hscope Hmethod Hnamed Hbuffer Hunnamed.
  fix IH 1. intros [op name cs|op name ac cs|op name args|op addr size|op args].
  - apply Hscope. induction cs as [|child cs IHcs]; constructor; [apply IH|exact IHcs].
  - apply Hmethod. induction cs as [|child cs IHcs]; constructor; [apply IH|exact IHcs].
  - apply Hnamed.
  - apply Hbuffer.
  - apply Hunnamed.
Qed.

Lemma visitChildren_cons {S} depth child children entType (visitorFn : Visitor S) s :
  visitChildren depth (child :: children) entType visitorFn s =
  bind (scopeVisit depth child entType visitorFn)
       (fun _ => visitChildren depth children entType visitorFn) s.
Proof. reflexivity. Qed.

(** [scopeVisit]: the visitor first, then the children if it says so. *)
Lemma scopeVisit_eq {S} depth ent entType (visitorFn : Visitor S) s :
  scopeVisit depth ent entType visitorFn s =
  bind (if entityMatches entType ent then visitorFn depth ent else ret true)
       (fun keep : bool =>
          if keep
          then visitChildren (depth + 1) (Children ent) entType visitorFn
          else ret tt) s.
Proof.
  assert (Hfix : forall children,
             (fix visitAll (children : list Entity) : M S unit :=
                match children with
                | [] => ret tt
                | child :: children' =>
                    bind (scopeVisit (depth + 1) child entType visitorFn)
                         (fun _ => visitAll children')
                end) children
             = visitChildren (depth + 1) children entType visitorFn).
  { induction children as [|child children IHc]; [reflexivity|].
    cbn [visitChildren]. rewrite IHc. reflexivity. }
  destruct ent as [op name cs|op name ac cs|op name args|op addr size|op args];
    cbn [scopeVisit Children]; rewrite ?Hfix; try reflexivity.
  all: unfold bind; destruct (if entityMatches entType _ then _ else _) as [s1 l1 [[]|msg]];
    reflexivity.
Qed.

(** [staticVisits] lists the entities of [staticOrder]. *)
Lemma staticVisits_order ent :
  forall depth, map snd (staticVisits depth ent) = staticOrder ent.
Proof.
  induction ent as [op name cs IH| | | |] using Entity_children_ind; intros depth;
    try reflexivity.
  cbn [staticVisits staticOrder map snd]. f_equal.
  induction IH as [|child cs Hchild _ IHcs]; [reflexivity|].
  cbn [flat_map]. by rewrite map_app, Hchild, IHcs.
Qed.

(** ** Zero padding *)

Lemma padded_length data s :
  Z.of_nat (length (padded data s)) = Z.max s (Z.of_nat (length data)).
Proof. unfold padded. rewrite length_app, repeat_length. lia. Qed.

Lemma padded_prefix data s : firstn (length data) (padded data s) = data.
Proof.
  unfold padded. rewrite firstn_app, Nat.sub_diag, firstn_all. cbn [firstn].
  by rewrite app_nil_r.
Qed.

Lemma padded_zeros data s i :
  Z.of_nat (length data) <= i < s ->
  nth_error (padded data s) (Z.to_nat i) = Some x00.
Proof.
  intros Hi. unfold padded. rewrite nth_error_app2 by lia.
  apply nth_error_repeat. lia.
Qed.

Lemma padded_short data s : s <= Z.of_nat (length data) -> padded data s = data.
Proof.
  intros Hs. unfold padded.
  replace (Z.to_nat (s - Z.of_nat (length data))) with O by lia.
  cbn [repeat]. by rewrite app_nil_r.
Qed.

Section PassFacts.

Context {H : Type}.
Variable vmConvert :
  VM H -> execContext -> value -> valueType -> execContext * (value * option Error).
Variable maxAlloc : Z.

Implicit Types (c : checkState H) (vm : VM H).

Local Abbreviation visitor := (checkVisitor vmConvert maxAlloc).
Local Abbreviation visitEach' := (visitEach vmConvert maxAlloc).

(** Once an error is recorded the visitor does nothing. *)
Lemma checkVisitor_after_error depth ent c e :
  chk_err c = Some e ->
  visitor depth ent c = mkOut c [EvVisitor depth ent] (Val false).
Proof. intros He. rewrite checkVisitor_eq, He. reflexivity. Qed.

(** On a method, bare or named, the visitor does nothing and returns
    false. *)
Lemma checkVisitor_method depth ent c :
  isMethod ent = true ->
  visitor depth ent c = mkOut c [EvVisitor depth ent] (Val false).
Proof.
  intros Hm. rewrite checkVisitor_eq. unfold isMethod in Hm.
  destruct (chk_err c); [reflexivity|].
  destruct (unwrapped ent) as [[]|]; try discriminate. reflexivity.
Qed.

(** The visitor returns true on no method. *)
Lemma checkVisitor_true depth ent c :
  res (visitor depth ent c) = Val true ->
  isMethod ent = false /\ chk_err c = None.
Proof.
  rewrite checkVisitor_eq. unfold isMethod.
  destruct (chk_err c); [discriminate|].
  destruct (unwrapped ent) as [[]|]; try discriminate; auto.
Qed.

(** One call of the visitor is one entry of the log. *)
Lemma checkVisitor_visits depth ent c :
  visitsOf (log (visitor depth ent c)) = [(depth, ent)].
Proof.
  rewrite checkVisitor_eq.
  destruct (chk_err c); [reflexivity|].
  destruct (unwrapped ent) as [[op name cs|op name ac cs|op name args|op addr size|op args]|];
    try reflexivity.
  cbn [prepend log app visitsOf].
  rewrite (proj2 (initBuffer_touches vmConvert maxAlloc addr size c)). reflexivity.
Qed.

(** The visitor writes to the payload of the buffer it is handed, and to
    nothing else of the VM. *)
Lemma checkVisitor_touches depth ent c :
  touchesOnly (fun a => bufferAddr ent = Some a) (chk_vm c)
    (chk_vm (st (visitor depth ent c))).
Proof.
  rewrite checkVisitor_eq. unfold bufferAddr.
  destruct (chk_err c); [apply touchesOnly_refl|].
  destruct (unwrapped ent) as [[op name cs|op name ac cs|op name args|op addr size|op args]|];
    try apply touchesOnly_refl.
  cbn [prepend st].
  eapply touchesOnly_mono; [|apply initBuffer_touches].
  intros a <-. reflexivity.
Qed.

(** An error appears only where the evaluation of a buffer size fails;
    the visitor then records it and changes nothing else. *)
Lemma checkVisitor_records_error depth ent c e :
  chk_err c = None ->
  chk_err (st (visitor depth ent c)) = Some e ->
  exists op addr size ctx' v,
    unwrapped ent = Some (bufferEntity op addr size) /\
    vmConvert (chk_vm c) (chk_ctx c) size valueTypeInteger = (ctx', (v, Some e)) /\
    visitor depth ent c =
    mkOut (mkCheck (chk_vm c) (Some e) ctx')
          [EvVisitor depth ent; EvConvert size valueTypeInteger] (Val false).
Proof.
  intros Hnone. rewrite checkVisitor_eq, Hnone.
  destruct (unwrapped ent) as [[op name cs|op name ac cs|op name args|op addr size|op args]|];
    cbn [prepend st]; try congruence.
  intros Herr.
  destruct (vmConvert (chk_vm c) (chk_ctx c) size valueTypeInteger)
    as [ctx' [v [e'|]]] eqn:Hconv.
  - rewrite (initBuffer_failed _ _ _ _ _ _ _ _ Hconv) in Herr |- *.
    cbn in Herr. injection Herr as ->.
    exists op, addr, size, ctx', v.
    split; [reflexivity|]. split; [exact Hconv|]. reflexivity.
  - exfalso. revert Herr.
    unfold initBuffer. rewrite bind_convertSize, Hconv. cbn [fst snd]. msimpl.
    destruct v; cbn [assertUint64]; msimpl; try (cbn; congruence).
    unfold make_bytes, append_bytes, store_data.
    repeat match goal with
           | |- context [match ?x with Some _ => _ | None => _ end] => destruct x; msimpl
           | |- context [if ?b then _ else _] => destruct b; msimpl
           end.
    all: cbn; congruence.
Qed.

(** *** The pass as a sequence of visitor calls *)

Lemma bind_ext {S A B} (m : M S A) (k1 k2 : A -> M S B) s :
  (forall a s', k1 a s' = k2 a s') -> bind m k1 s = bind m k2 s.
Proof.
  intros Hk. unfold bind. destruct (m s) as [s1 l1 [a|msg]]; [|reflexivity].
  by rewrite Hk.
Qed.

Lemma visitsOf_app l1 l2 : visitsOf (l1 ++ l2) = visitsOf l1 ++ visitsOf l2.
Proof.
  induction l1 as [|ev l1 IH]; [reflexivity|].
  destruct ev; cbn [app visitsOf]; rewrite IH; reflexivity.
Qed.

Lemma visitsOf_visited l : visitsOf (map visited l) = l.
Proof.
  induction l as [|[d e] l IH]; [reflexivity|].
  cbn. by rewrite IH.
Qed.

Lemma visitEach_cons depth ent visits c :
  visitEach' ((depth, ent) :: visits) c =
  bind (visitor depth ent) (fun _ => visitEach' visits) c.
Proof. reflexivity. Qed.

Lemma visitEach_app visits1 visits2 :
  forall c,
    visitEach' (visits1 ++ visits2) c =
    bind (visitEach' visits1) (fun _ => visitEach' visits2) c.
Proof.
  induction visits1 as [|[d e] visits1 IH]; intros c.
  - cbn [app visitEach]. by rewrite bind_ret.
  - cbn [app visitEach]. rewrite bind_bind.
    apply bind_ext. intros _ c'. apply IH.
Qed.

(** The walk of [checkEntities] below [ent] amounts to the visitor being
    called, one entity after the other, on the entities its log names. *)
Lemma scopeVisit_visitEach ent :
  forall depth c,
    visitEach' (visitsOf (log (scopeVisit depth ent EntityTypeAny visitor c))) c =
    scopeVisit depth ent EntityTypeAny visitor c.
Proof.
  assert (Hchildren : forall children,
             Forall (fun ent => forall depth c,
                       visitEach' (visitsOf (log (scopeVisit depth ent EntityTypeAny visitor c))) c =
                       scopeVisit depth ent EntityTypeAny visitor c) children ->
             forall depth c,
               visitEach' (visitsOf (log (visitChildren depth children EntityTypeAny visitor c))) c =
               visitChildren depth children EntityTypeAny visitor c).
  { induction 1 as [|child children Hchild _ IH]; intros depth c; [reflexivity|].
    rewrite visitChildren_cons, bind_eq.
    specialize (Hchild depth c).
    destruct (res (scopeVisit depth child EntityTypeAny visitor c)) as [[]|msg] eqn:Hres.
    - cbn [prepend log]. rewrite visitsOf_app, visitEach_app, bind_eq, Hchild, Hres.
      by rewrite IH.
    - cbn [log]. rewrite Hchild.
      destruct (scopeVisit depth child EntityTypeAny visitor c) as [s1 l1 r1].
      cbn in *. by subst. }
  assert (Hnode : forall ent,
             (forall depth c,
                visitEach' (visitsOf (log (visitChildren depth (Children ent) EntityTypeAny visitor c))) c =
                visitChildren depth (Children ent) EntityTypeAny visitor c) ->
             forall depth c,
               visitEach' (visitsOf (log (scopeVisit depth ent EntityTypeAny visitor c))) c =
               scopeVisit depth ent EntityTypeAny visitor c).
  { intros e IH depth c. rewrite scopeVisit_eq. cbn [entityMatches].
    rewrite bind_eq.
    destruct (res (visitor depth e c)) as [[]|msg] eqn:Hres.
    - cbn [prepend log]. rewrite visitsOf_app, checkVisitor_visits.
      cbn [app]. rewrite visitEach_cons, bind_eq, Hres. by rewrite IH.
    - cbn [prepend log ret]. rewrite app_nil_r, checkVisitor_visits.
      rewrite visitEach_cons, bind_eq, Hres. cbn [visitEach]. reflexivity.
    - cbn [log]. rewrite checkVisitor_visits.
      rewrite visitEach_cons, bind_eq, Hres. reflexivity. }
  induction ent using Entity_children_ind; apply Hnode; cbn [Children];
    try (intros; reflexivity); by apply Hchildren.
Qed.

(** Once an error is recorded a sequence of visitor calls does nothing. *)
Lemma visitEach_after_error visits :
  forall c e,
    chk_err c = Some e ->
    visitEach' visits c = mkOut c (map visited visits) (Val tt).
Proof.
  induction visits as [|[d ent] visits IH]; intros c e He; [reflexivity|].
  rewrite visitEach_cons, bind_eq, (checkVisitor_after_error d ent c e He).
  cbn [res st log]. rewrite (IH c e He). reflexivity.
Qed.

(** A sequence of visitor calls that returns made every call. *)
Lemma visitEach_returned visits :
  forall c,
    res (visitEach' visits c) = Val tt ->
    visitsOf (log (visitEach' visits c)) = visits.
Proof.
  induction visits as [|[d ent] visits IH]; intros c; [reflexivity|].
  rewrite visitEach_cons, bind_eq.
  destruct (res (visitor d ent c)) as [b|msg] eqn:Hres; [|discriminate].
  cbn [prepend res log]. intros Hrest.
  rewrite visitsOf_app, checkVisitor_visits, (IH _ Hrest). reflexivity.
Qed.

(** A sequence of visitor calls never makes more calls than it lists. *)
Lemma visitEach_visits_length visits :
  forall c,
    (length (visitsOf (log (visitEach' visits c))) <= length visits)%nat.
Proof.
  induction visits as [|[d ent] visits IH]; intros c; [cbn; lia|].
  rewrite visitEach_cons, bind_eq.
  destruct (res (visitor d ent c)) as [b|msg] eqn:Hres.
  - cbn [prepend log]. rewrite visitsOf_app, checkVisitor_visits, length_app.
    specialize (IH (st (visitor d ent c))). cbn [length]. lia.
  - cbn [log]. rewrite checkVisitor_visits. cbn [length]. lia.
Qed.

(** A sequence of visitor calls writes to the payloads of the buffers it
    is handed, and to nothing else of the VM. *)
Lemma visitEach_touches visits :
  forall c,
    touchesOnly (targets visits) (chk_vm c) (chk_vm (st (visitEach' visits c))).
Proof.
  induction visits as [|[d ent] visits IH]; intros c; [apply touchesOnly_refl|].
  rewrite visitEach_cons, bind_eq.
  assert (Hhead : touchesOnly (targets ((d, ent) :: visits)) (chk_vm c)
                    (chk_vm (st (visitor d ent c)))).
  { eapply touchesOnly_mono; [|apply checkVisitor_touches].
    intros a Ha. exists (d, ent). split; [by left|exact Ha]. }
  destruct (res (visitor d ent c)) as [b|msg]; [|exact Hhead].
  cbn [prepend st]. eapply touchesOnly_trans; [exact Hhead|].
  eapply touchesOnly_mono; [|apply IH].
  intros a (de & Hin & Ha). exists de. split; [by right|exact Ha].
Qed.

(** The visitor is only ever called on entities outside method bodies. *)
Lemma scopeVisit_visits_static ent :
  forall depth c d e,
    In (d, e) (visitsOf (log (scopeVisit depth ent EntityTypeAny visitor c))) ->
    In e (staticOrder ent).
Proof.
  assert (Hchildren : forall children,
             Forall (fun ent => forall depth c d e,
                       In (d, e) (visitsOf (log (scopeVisit depth ent EntityTypeAny visitor c))) ->
                       In e (staticOrder ent)) children ->
             forall depth c d e,
               In (d, e) (visitsOf (log (visitChildren depth children EntityTypeAny visitor c))) ->
               In e (flat_map staticOrder children)).
  { induction 1 as [|child children Hchild _ IH]; intros depth c d e; [intros []|].
    rewrite visitChildren_cons, bind_eq. cbn [flat_map]. rewrite in_app_iff.
    destruct (res (scopeVisit depth child EntityTypeAny visitor c)) as [[]|msg].
    - cbn [prepend log]. rewrite visitsOf_app, in_app_iff.
      intros [Hin|Hin]; [left; eapply Hchild; eauto|right; eapply IH; eauto].
    - cbn [log]. intros Hin. left. eapply Hchild; eauto. }
  assert (Hhead : forall ent depth c d e,
             In (d, e) (visitsOf (log (visitor depth ent c))) -> In e (staticOrder ent)).
  { intros e0 depth c d e. rewrite checkVisitor_visits.
    intros [[= _ <-]|[]]. destruct e0; by left. }
  assert (Hleaf : forall ent,
             Children ent = [] ->
             forall depth c d e,
               In (d, e) (visitsOf (log (scopeVisit depth ent EntityTypeAny visitor c))) ->
               In e (staticOrder ent)).
  { intros e0 Hnil depth c d e. rewrite scopeVisit_eq, bind_eq, Hnil.
    cbn [entityMatches visitChildren].
    destruct (res (visitor depth e0 c)) as [[]|msg]; cbn [prepend log ret];
      rewrite ?app_nil_r; apply Hhead. }
  induction ent as [op name cs IH|op name ac cs IH| | |] using Entity_children_ind;
    try (apply Hleaf; reflexivity).
  - intros depth c d e. rewrite scopeVisit_eq, bind_eq.
    cbn [entityMatches Children].
    destruct (res (visitor depth (scopeEntity op name cs) c)) as [[]|msg];
      cbn [prepend log ret]; rewrite ?app_nil_r; try apply Hhead.
    rewrite visitsOf_app, in_app_iff. intros [Hin|Hin]; [eapply Hhead; eauto|].
    cbn [staticOrder]. right. eapply Hchildren; eauto.
  - intros depth c d e. rewrite scopeVisit_eq, bind_eq.
    cbn [entityMatches Children].
    rewrite (checkVisitor_method depth (Method op name ac cs) c eq_refl).
    cbn [res prepend log ret st app visitsOf]. intros [[= _ <-]|[]]. by left.
Qed.

(** On a method, bare or named, the walk stops after the one call of the
    visitor. *)
Lemma scopeVisit_method depth ent c :
  isMethod ent = true ->
  scopeVisit depth ent EntityTypeAny visitor c =
  mkOut c [EvVisitor depth ent] (Val tt).
Proof.
  intros Hm. rewrite scopeVisit_eq, bind_eq. cbn [entityMatches].
  rewrite (checkVisitor_method depth ent c Hm). reflexivity.
Qed.

(** *** The pass as a whole *)

Lemma checkEntities_eq vm :
  checkEntities vmConvert maxAlloc vm =
  let o := scopeVisit 0 (rootNS vm) EntityTypeAny visitor (passStart vm) in
  mkOut (chk_vm (st o)) (log o)
        match res o with
        | Val _ => Val (chk_err (st o))
        | Panic msg => Panic msg
        end.
Proof. reflexivity. Qed.

Lemma checkEntities_visitEach vm :
  scopeVisit 0 (rootNS vm) EntityTypeAny visitor (passStart vm) =
  visitEach' (passVisits vmConvert maxAlloc vm) (passStart vm).
Proof. unfold passVisits. rewrite checkEntities_eq. cbn [log]. by rewrite scopeVisit_visitEach. Qed.

(** The calls before a call that was made all returned, and the call is
    made in the state they left. *)
Lemma visitEach_split pre depth ent post c :
  visitsOf (log (visitEach' (pre ++ (depth, ent) :: post) c)) =
    pre ++ (depth, ent) :: post ->
  res (visitEach' pre c) = Val tt /\
  visitEach' (pre ++ (depth, ent) :: post) c =
  prepend (log (visitEach' pre c))
    (bind (visitor depth ent) (fun _ => visitEach' post) (st (visitEach' pre c))).
Proof.
  rewrite visitEach_app, bind_eq.
  destruct (res (visitEach' pre c)) as [[]|msg] eqn:Hres.
  - intros _. split; reflexivity.
  - cbn [log]. intros Heq. exfalso.
    pose proof (visitEach_visits_length pre c) as Hlen.
    rewrite Heq, length_app in Hlen. cbn [length] in Hlen. lia.
Qed.

Lemma checkEntities_split vm pre depth ent post :
  passVisits vmConvert maxAlloc vm = pre ++ (depth, ent) :: post ->
  res (visitEach' pre (passStart vm)) = Val tt /\
  scopeVisit 0 (rootNS vm) EntityTypeAny visitor (passStart vm) =
  prepend (log (visitEach' pre (passStart vm)))
    (bind (visitor depth ent) (fun _ => visitEach' post)
          (st (visitEach' pre (passStart vm)))).
Proof.
  intros Hsplit. rewrite checkEntities_visitEach, Hsplit.
  apply visitEach_split. rewrite <- Hsplit at 2.
  rewrite <- Hsplit, <- checkEntities_visitEach. reflexivity.
Qed.

(** The pass stops at the first size that fails to evaluate: the error is
    the result, the VM is the one the failing call found, and the calls
    that follow leave nothing but their entry in the log. *)
Lemma checkEntities_stops_at_error vm pre depth ent post op addr size ctx' v e :
  passVisits vmConvert maxAlloc vm = pre ++ (depth, ent) :: post ->
  chk_err (st (visitEach' pre (passStart vm))) = None ->
  unwrapped ent = Some (bufferEntity op addr size) ->
  vmConvert (chk_vm (st (visitEach' pre (passStart vm))))
            (chk_ctx (st (visitEach' pre (passStart vm))))
            size valueTypeInteger = (ctx', (v, Some e)) ->
  checkEntities vmConvert maxAlloc vm =
  mkOut (chk_vm (st (visitEach' pre (passStart vm))))
        (log (visitEach' pre (passStart vm))
           ++ [EvVisitor depth ent; EvConvert size valueTypeInteger]
           ++ map visited post)
        (Val (Some e)).
Proof.
  intros Hsplit Hnone Hbuf Hconv.
  destruct (checkEntities_split vm pre depth ent post Hsplit) as [_ Hwalk].
  rewrite checkEntities_eq, Hwalk. clear Hwalk.
  set (c1 := st (visitEach' pre (passStart vm))) in *.
  rewrite bind_eq, checkVisitor_eq, Hnone, Hbuf.
  rewrite (initBuffer_failed vmConvert maxAlloc addr size c1 ctx' v e Hconv).
  cbn [prepend st log res app].
  rewrite (visitEach_after_error post (mkCheck (chk_vm c1) (Some e) ctx') e eq_refl).
  reflexivity.
Qed.

(** A buffer whose size evaluates to [s], if the visit returns at all,
    is left with its payload zero-padded up to [s]. *)
Lemma initBuffer_payload addr size c ctx' s b :
  vmConvert (chk_vm c) (chk_ctx c) size valueTypeInteger = (ctx', (VUint64 s, None)) ->
  0 <= s < 2 ^ 64 ->
  Z.of_nat (length (payload (chk_vm c) addr)) < 2 ^ 64 ->
  res (initBuffer vmConvert maxAlloc addr size c) = Val b ->
  b = true /\
  chk_err (st (initBuffer vmConvert maxAlloc addr size c)) = None /\
  payload (chk_vm (st (initBuffer vmConvert maxAlloc addr size c))) addr =
    padded (payload (chk_vm c) addr) s.
Proof.
  intros Hconv Hs HL.
  rewrite (initBuffer_sized vmConvert maxAlloc addr size c ctx' s Hconv Hs HL).
  unfold payload in *.
  destruct (heap (chk_vm c) !! addr) as [data|] eqn:Hdata;
    cbn [default from_option id] in *.
  - destruct (Z.of_nat (length data) <? s) eqn:Hlt.
    + destruct (s - Z.of_nat (length data) <=? maxAlloc); [|discriminate].
      destruct (s <=? maxAlloc); [|discriminate].
      cbn [prepend res st with_data chk_vm chk_err set_data heap].
      intros [= <-]. rewrite lookup_insert_eq. by repeat split.
    + cbn [prepend res st chk_vm chk_err]. intros [= <-].
      apply Z.ltb_ge in Hlt. rewrite Hdata, padded_short by lia. by repeat split.
  - destruct (s <=? maxAlloc); [|discriminate].
    cbn [prepend res st with_data chk_vm chk_err set_data heap].
    intros [= <-]. rewrite lookup_insert_eq. cbn [default from_option id].
    unfold padded. cbn [length app]. by rewrite Z.sub_0_r.
Qed.

(** The pass writes to the payloads of the buffers it visits, and to
    nothing else of the VM. *)
Lemma checkEntities_touches vm :
  touchesOnly (targets (passVisits vmConvert maxAlloc vm)) vm
    (st (checkEntities vmConvert maxAlloc vm)).
Proof.
  rewrite checkEntities_eq. cbn [st]. rewrite checkEntities_visitEach.
  apply (visitEach_touches (passVisits vmConvert maxAlloc vm) (passStart vm)).
Qed.

(** *** A pass that succeeds visits every entity outside the method bodies *)

(** Once an error is recorded the walk stops below the entity it is at. *)
Lemma scopeVisit_after_error depth ent c e :
  chk_err c = Some e ->
  scopeVisit depth ent EntityTypeAny visitor c =
  mkOut c [EvVisitor depth ent] (Val tt).
Proof.
  intros He. rewrite scopeVisit_eq, bind_eq. cbn [entityMatches].
  rewrite (checkVisitor_after_error depth ent c e He). reflexivity.
Qed.

Lemma visitChildren_after_error children :
  forall depth c e,
    chk_err c = Some e ->
    st (visitChildren depth children EntityTypeAny visitor c) = c.
Proof.
  induction children as [|child children IH]; intros depth c e He; [reflexivity|].
  rewrite visitChildren_cons, bind_eq, (scopeVisit_after_error depth child c e He).
  cbn [res st prepend]. by apply (IH depth c e).
Qed.

(** A walk that returns without a recorded error called the visitor on
    every entity outside the method bodies, in depth-first order. *)
Lemma scopeVisit_visits_all ent :
  forall depth c,
    res (scopeVisit depth ent EntityTypeAny visitor c) = Val tt ->
    chk_err (st (scopeVisit depth ent EntityTypeAny visitor c)) = None ->
    visitsOf (log (scopeVisit depth ent EntityTypeAny visitor c)) =
    staticVisits depth ent.
Proof.
  assert (Hchildren : forall children,
             Forall (fun ent => forall depth c,
                       res (scopeVisit depth ent EntityTypeAny visitor c) = Val tt ->
                       chk_err (st (scopeVisit depth ent EntityTypeAny visitor c)) = None ->
                       visitsOf (log (scopeVisit depth ent EntityTypeAny visitor c)) =
                       staticVisits depth ent) children ->
             forall depth c,
               res (visitChildren depth children EntityTypeAny visitor c) = Val tt ->
               chk_err (st (visitChildren depth children EntityTypeAny visitor c)) = None ->
               visitsOf (log (visitChildren depth children EntityTypeAny visitor c)) =
               flat_map (staticVisits depth) children).
  { induction 1 as [|child children Hchild _ IH]; intros depth c; [reflexivity|].
    rewrite visitChildren_cons, bind_eq.
    destruct (res (scopeVisit depth child EntityTypeAny visitor c)) as [[]|msg] eqn:Hres;
      [|discriminate].
    cbn [prepend res st log]. intros Hrest Herr.
    destruct (chk_err (st (scopeVisit depth child EntityTypeAny visitor c)))
      as [e|] eqn:Herr1.
    { rewrite (visitChildren_after_error children depth _ e Herr1) in Herr. congruence. }
    rewrite visitsOf_app, (Hchild depth c Hres Herr1), (IH depth _ Hrest Herr).
    reflexivity. }
  assert (Hleaf : forall ent,
             Children ent = [] ->
             staticVisits 0 ent = [(0, ent)] ->
             forall depth c,
               res (scopeVisit depth ent EntityTypeAny visitor c) = Val tt ->
               visitsOf (log (scopeVisit depth ent EntityTypeAny visitor c)) =
               [(depth, ent)]).
  { intros e0 Hnil _ depth c. rewrite scopeVisit_eq, bind_eq, Hnil.
    cbn [entityMatches visitChildren].
    destruct (res (visitor depth e0 c)) as [[]|msg]; cbn [prepend log res ret];
      rewrite ?app_nil_r; try discriminate; intros _; apply checkVisitor_visits. }
  induction ent as [op name cs IH|op name ac cs IH|op name args|op addr size|op args]
    using Entity_children_ind; intros depth c.
  - rewrite scopeVisit_eq, bind_eq. cbn [entityMatches Children].
    rewrite checkVisitor_eq. cbn [unwrapped].
    destruct (chk_err c) as [e|] eqn:Herr0; cbn [prepend res st log app].
    { intros _ Herr. cbn in Herr. congruence. }
    intros Hres Herr. cbn [visitsOf staticVisits]. f_equal.
    by apply Hchildren.
  - intros _ _. rewrite (scopeVisit_method depth (Method op name ac cs) c eq_refl).
    reflexivity.
  - intros Hres _. by apply Hleaf.
  - intros Hres _. by apply Hleaf.
  - intros Hres _. by apply Hleaf.
Qed.

(** A pass that succeeds called the visitor on every entity outside the
    method bodies of the namespace. *)
Lemma checkEntities_visits_all vm :
  res (checkEntities vmConvert maxAlloc vm) = Val None ->
  passVisits vmConvert maxAlloc vm = staticVisits 0 (rootNS vm).
Proof.
  unfold passVisits. rewrite checkEntities_eq. cbn [res log].
  destruct (res (scopeVisit 0 (rootNS vm) EntityTypeAny visitor (passStart vm)))
    as [[]|msg] eqn:Hres; [|discriminate].
  intros [= Herr]. by apply scopeVisit_visits_all.
Qed.

(** *** The payload of a buffer after the visits *)

Lemma targets_dec visits addr : targets visits addr \/ ~ targets visits addr.
Proof.
  induction visits as [|[d ent] visits IH].
  - right. by intros (de & [] & _).
  - destruct (decide (bufferAddr ent = Some addr)) as [Heq|Hne].
    + left. exists (d, ent). split; [by left|exact Heq].
    + destruct IH as [(de & Hin & Ha)|Hno].
      * left. exists de. split; [by right|exact Ha].
      * right. intros (de & [<-|Hin] & Ha); [by apply Hne|].
        apply Hno. by exists de.
Qed.

(** Calls of the visitor that all evaluate the size of the buffer object
    at [addr] to [s] leave its payload zero-padded up to [s], however
    many of them are handed that buffer. *)
Lemma visitEach_pads addr s visits :
  0 <= s < 2 ^ 64 ->
  forall c,
    res (visitEach' visits c) = Val tt ->
    chk_err (st (visitEach' visits c)) = None ->
    Z.of_nat (length (payload (chk_vm c) addr)) < 2 ^ 64 ->
    (forall pre depth ent post op size,
        visits = pre ++ (depth, ent) :: post ->
        unwrapped ent = Some (bufferEntity op addr size) ->
        exists ctx',
          vmConvert (chk_vm (st (visitEach' pre c))) (chk_ctx (st (visitEach' pre c)))
                    size valueTypeInteger = (ctx', (VUint64 s, None))) ->
    targets visits addr ->
    payload (chk_vm (st (visitEach' visits c))) addr =
    padded (payload (chk_vm c) addr) s.
Proof.
  intros Hs. induction visits as [|[d ent] visits IH]; intros c.
  { by intros _ _ _ _ (de & [] & _). }
  rewrite visitEach_cons, bind_eq.
  destruct (res (visitor d ent c)) as [b|msg] eqn:Hres; [|discriminate].
  cbn [prepend res st]. intros Hrest Herr HL Hev Htg.
  set (c1 := st (visitor d ent c)) in *.
  assert (Herr1 : chk_err c1 = None).
  { destruct (chk_err c1) as [e|] eqn:He; [|reflexivity].
    rewrite (visitEach_after_error visits c1 e He) in Herr. cbn in Herr. congruence. }
  assert (Herr0 : chk_err c = None).
  { destruct (chk_err c) as [e|] eqn:He; [|reflexivity].
    subst c1. rewrite (checkVisitor_after_error d ent c e He) in Herr1.
    cbn in Herr1. congruence. }
  assert (Hev1 : forall pre depth ent' post op size,
             visits = pre ++ (depth, ent') :: post ->
             unwrapped ent' = Some (bufferEntity op addr size) ->
             exists ctx',
               vmConvert (chk_vm (st (visitEach' pre c1))) (chk_ctx (st (visitEach' pre c1)))
                         size valueTypeInteger = (ctx', (VUint64 s, None))).
  { intros pre depth ent' post op size Hsplit Hbuf.
    destruct (Hev ((d, ent) :: pre) depth ent' post op size) as [ctx' Hconv];
      [by rewrite Hsplit|exact Hbuf|].
    exists ctx'. revert Hconv. rewrite visitEach_cons, bind_eq, Hres.
    cbn [prepend st]. by subst c1. }
  destruct (decide (bufferAddr ent = Some addr)) as [Hhead|Hhead].
  - unfold bufferAddr in Hhead.
    destruct (unwrapped ent) as [[op name cs|op name ac cs|op name args|op a size|op args]|]
      eqn:Hbuf; try discriminate.
    injection Hhead as ->.
    destruct (Hev [] d ent visits op size eq_refl Hbuf) as [ctx' Hconv].
    cbn [visitEach ret st] in Hconv.
    assert (Hpay1 : payload (chk_vm c1) addr = padded (payload (chk_vm c) addr) s).
    { subst c1. revert Hres. rewrite checkVisitor_eq, Herr0, Hbuf.
      cbn [prepend res st]. intros Hres.
      by destruct (initBuffer_payload addr size c ctx' s b Hconv Hs HL Hres)
        as (_ & _ & ->). }
    destruct (targets_dec visits addr) as [Hmore|Hnomore].
    + rewrite (IH c1 Hrest Herr); try assumption.
      * rewrite Hpay1. apply padded_short. rewrite padded_length. lia.
      * rewrite Hpay1, padded_length. lia.
    + destruct (visitEach_touches visits c1) as [_ Hheap].
      unfold payload in *. by rewrite (Hheap addr Hnomore).
  - assert (Hpay1 : payload (chk_vm c1) addr = payload (chk_vm c) addr).
    { destruct (checkVisitor_touches d ent c) as [_ Hheap].
      subst c1. unfold payload. by rewrite (Hheap addr Hhead). }
    assert (Hmore : targets visits addr).
    { destruct Htg as (de & [<-|Hin] & Ha); [by destruct Hhead|]. by exists de. }
    rewrite (IH c1 Hrest Herr); try assumption; by rewrite Hpay1.
Qed.

(** C2, as the code has it.  Consider a buffer outside the method bodies
    of the namespace (a child of the root or of a scope nested in scopes,
    bare or wrapped one level in a named entity) whose size operand
    evaluates to the uint64 [s] each time the pass comes to it, and whose
    payload had length [L] when the pass began (a nil payload has length
    0).  After a pass that succeeds the payload has length [max s L],
    its first [L] bytes are the initial ones, the bytes at positions [L]
    to [s - 1] are zero, and when [s <= L] the payload is the initial
    one. *)
Theorem checkEntities_sizes_buffer vm ent op addr size s :
  res (checkEntities vmConvert maxAlloc vm) = Val None ->
  In ent (staticOrder (rootNS vm)) ->
  unwrapped ent = Some (bufferEntity op addr size) ->
  sizeEvaluatesTo vmConvert maxAlloc vm addr s ->
  0 <= s < 2 ^ 64 ->
  Z.of_nat (length (payload vm addr)) < 2 ^ 64 ->
  Z.of_nat (length (payload (st (checkEntities vmConvert maxAlloc vm)) addr))
    = Z.max s (Z.of_nat (length (payload vm addr))) /\
  firstn (length (payload vm addr))
         (payload (st (checkEntities vmConvert maxAlloc vm)) addr)
    = payload vm addr /\
  (forall i, Z.of_nat (length (payload vm addr)) <= i < s ->
     nth_error (payload (st (checkEntities vmConvert maxAlloc vm)) addr) (Z.to_nat i)
       = Some x00) /\
  (s <= Z.of_nat (length (payload vm addr)) ->
     payload (st (checkEntities vmConvert maxAlloc vm)) addr = payload vm addr).
Proof.
  intros Hok Hin Hbuf Heval Hs HL.
  assert (Hfinal : payload (st (checkEntities vmConvert maxAlloc vm)) addr
                   = padded (payload vm addr) s).
  { pose proof (checkEntities_visits_all vm Hok) as Hall.
    revert Hok. rewrite checkEntities_eq, checkEntities_visitEach, Hall.
    cbn [st res].
    destruct (res (visitEach' (staticVisits 0 (rootNS vm)) (passStart vm)))
      as [[]|msg] eqn:Hres; [|discriminate].
    intros [= Herr].
    apply (visitEach_pads addr s (staticVisits 0 (rootNS vm)) Hs (passStart vm)
             Hres Herr HL Heval).
    rewrite <- (staticVisits_order (rootNS vm) 0) in Hin.
    apply in_map_iff in Hin as (de & <- & Hin).
    exists de. split; [exact Hin|]. unfold bufferAddr. by rewrite Hbuf. }
  rewrite Hfinal.
  split; [apply padded_length|].
  split; [apply padded_prefix|].
  split; [intros i Hi; by apply padded_zeros|].
  apply padded_short.
Qed.

(** C9.  The visitor returns false on a method, bare or wrapped one level
    in a named entity, without touching anything; the walk then stops at
    that entity.  Hence every entity the pass visits lies outside the
    method bodies of the namespace, and a buffer object that is not among
    them has, after the pass, the payload it had before. *)
Theorem checkEntities_skips_methods vm :
  (forall depth ent c,
      isMethod ent = true ->
      visitor depth ent c = mkOut c [EvVisitor depth ent] (Val false)) /\
  (forall depth ent c,
      isMethod ent = true ->
      scopeVisit depth ent EntityTypeAny visitor c =
      mkOut c [EvVisitor depth ent] (Val tt)) /\
  (forall depth ent,
      In (depth, ent) (passVisits vmConvert maxAlloc vm) ->
      In ent (staticOrder (rootNS vm))) /\
  (forall addr,
      (forall ent, In ent (staticOrder (rootNS vm)) -> bufferAddr ent <> Some addr) ->
      heap (st (checkEntities vmConvert maxAlloc vm)) !! addr = heap vm !! addr).
Proof.
  split; [intros depth ent c; apply checkVisitor_method|].
  split; [intros depth ent c; apply scopeVisit_method|].
  assert (Hstatic : forall depth ent,
             In (depth, ent) (passVisits vmConvert maxAlloc vm) ->
             In ent (staticOrder (rootNS vm))).
  { intros depth ent. unfold passVisits. rewrite checkEntities_eq. cbn [log].
    apply scopeVisit_visits_static. }
  split; [exact Hstatic|].
  intros addr Hnone.
  destruct (checkEntities_touches vm) as [_ Hheap]. apply Hheap.
  intros ([d ent] & Hin & Haddr). cbn [snd] in Haddr.
  exact (Hnone ent (Hstatic d ent Hin) Haddr).
Qed.

End PassFacts.

(** ** Initialisation *)

Section InitFacts.

Context {H : Type}.
Variable populateJumpTable : (opcode -> option H) -> (opcode -> option H).
Variable vmConvert :
  VM H -> execContext -> value -> valueType -> execContext * (value * option Error).
Variable maxAlloc : Z.

Implicit Types (vm : VM H).

Local Abbreviation Init' := (Init populateJumpTable vmConvert maxAlloc).
Local Abbreviation checkEntities' := (checkEntities vmConvert maxAlloc).

(** The VM with its jump table built. *)
Local Abbreviation populated vm :=
  (set_jumpTable (populateJumpTable (jumpTable vm)) vm).

Lemma LookupTable_eq tableName vm :
  LookupTable tableName vm =
  mkOut vm [EvLookupTable tableName] (Val (tableResolver vm tableName)).
Proof. reflexivity. Qed.

Lemma ParseAML_eq tableHandle tableName header vm :
  ParseAML tableHandle tableName header vm =
  let r := tableParser vm tableHandle tableName header (rootNS vm, heap vm) in
  mkOut (set_namespace (fst r) vm) [EvParseAML tableHandle tableName header]
        (Val (snd r)).
Proof.
  unfold ParseAML. msimpl.
  by destruct (tableParser vm _ _ _ _) as [ns err].
Qed.

(** A table the resolver does not have is skipped. *)
Lemma loadTables_absent tableHandle tableName tables vm :
  tableResolver vm tableName = None ->
  loadTables ((tableHandle, tableName) :: tables) vm =
  prepend [EvLookupTable tableName] (loadTables tables vm).
Proof.
  intros Habsent. cbn [loadTables].
  rewrite bind_eq, LookupTable_eq. cbn [res st log]. by rewrite Habsent.
Qed.

(** A table the parser rejects ends the loop with the wrapped error. *)
Lemma loadTables_rejected tableHandle tableName tables vm header ns err :
  tableResolver vm tableName = Some header ->
  tableParser vm (uint8 (tableHandle + 1)) tableName header (rootNS vm, heap vm)
    = (ns, Some err) ->
  loadTables ((tableHandle, tableName) :: tables) vm =
  mkOut (set_namespace ns vm)
        [EvLookupTable tableName;
         EvParseAML (uint8 (tableHandle + 1)) tableName header]
        (Val (Some (decodeFailure err))).
Proof.
  intros Hpresent Hparse. cbn [loadTables].
  rewrite bind_eq, LookupTable_eq. cbn [res st log]. rewrite Hpresent.
  rewrite bind_eq, ParseAML_eq, Hparse. reflexivity.
Qed.

(** A table the parser accepts is loaded, and the loop goes on. *)
Lemma loadTables_parsed tableHandle tableName tables vm header ns :
  tableResolver vm tableName = Some header ->
  tableParser vm (uint8 (tableHandle + 1)) tableName header (rootNS vm, heap vm)
    = (ns, None) ->
  loadTables ((tableHandle, tableName) :: tables) vm =
  prepend [EvLookupTable tableName;
           EvParseAML (uint8 (tableHandle + 1)) tableName header]
          (loadTables tables (tableLoaded tableName header ns vm)).
Proof.
  intros Hpresent Hparse. cbn [loadTables].
  rewrite bind_eq, LookupTable_eq. cbn [res st log]. rewrite Hpresent.
  rewrite bind_eq, ParseAML_eq, Hparse. cbn [res st log fst snd].
  rewrite prepend_prepend. cbn [app]. f_equal.
  unfold tableLoaded, widthFor.
  destruct (String.eqb tableName "DSDT"); [|by rewrite bind_ret].
  rewrite bind_bind, bind_modify.
  destruct (2 <=? Revision header); [rewrite bind_modify|rewrite bind_ret]; reflexivity.
Qed.

(** [Init] after its loop over the tables. *)
Lemma Init_eq vm :
  Init' vm =
  match loadTables [(0, "DSDT"); (1, "SSDT")] vm with
  | mkOut vm1 l (Val None) =>
      prepend (l ++ [EvPopulateJumpTable]) (checkEntities' (populated vm1))
  | mkOut vm1 l (Val (Some e)) => mkOut vm1 l (Val (Some e))
  | mkOut vm1 l (Panic msg) => mkOut vm1 l (Panic msg)
  end.
Proof.
  unfold Init. rewrite bind_eq.
  destruct (loadTables _ vm) as [vm1 l [[e|]|msg]]; cbn [res st log].
  - unfold prepend, ret; cbn. by rewrite app_nil_r.
  - msimpl. by rewrite prepend_prepend.
  - reflexivity.
Qed.

(** *** The integer width *)

Lemma checkEntities_width vm :
  sizeOfIntInBits (st (checkEntities' vm)) = sizeOfIntInBits vm.
Proof.
  destruct (checkEntities_touches vmConvert maxAlloc vm) as [(_ & _ & _ & Hw & _) _].
  exact Hw.
Qed.

Lemma loadTables_SSDT_width vm :
  sizeOfIntInBits (st (loadTables [(1, "SSDT")] vm)) = sizeOfIntInBits vm.
Proof.
  destruct (tableResolver vm "SSDT") as [header|] eqn:Hres.
  - destruct (tableParser vm (uint8 (1 + 1)) "SSDT" header (rootNS vm, heap vm))
      as [ns [err|]] eqn:Hparse.
    + by rewrite (loadTables_rejected _ _ _ _ _ _ _ Hres Hparse).
    + by rewrite (loadTables_parsed _ _ _ _ _ _ Hres Hparse).
  - by rewrite (loadTables_absent _ _ _ _ Hres).
Qed.

(** The steps of [Init] after its loop keep the width. *)
Lemma Init_width_after_loop vm :
  sizeOfIntInBits (st (Init' vm)) =
  sizeOfIntInBits (st (loadTables [(0, "DSDT"); (1, "SSDT")] vm)).
Proof.
  rewrite Init_eq.
  destruct (loadTables _ vm) as [vm1 l [[e|]|msg]]; cbn [st prepend]; try reflexivity.
  by rewrite checkEntities_width.
Qed.

Lemma Init_width_parsed vm header ns :
  tableResolver vm "DSDT" = Some header ->
  tableParser vm 1 "DSDT" header (rootNS vm, heap vm) = (ns, None) ->
  sizeOfIntInBits (st (Init' vm)) = widthFor header.
Proof.
  intros Hres Hparse. rewrite Init_width_after_loop.
  rewrite (loadTables_parsed 0 "DSDT" _ vm header ns Hres Hparse).
  cbn [prepend st]. by rewrite loadTables_SSDT_width.
Qed.

Lemma Init_width_absent vm :
  tableResolver vm "DSDT" = None ->
  sizeOfIntInBits (st (Init' vm)) = sizeOfIntInBits vm.
Proof.
  intros Hres. rewrite Init_width_after_loop.
  rewrite (loadTables_absent 0 "DSDT" _ vm Hres).
  cbn [prepend st]. by rewrite loadTables_SSDT_width.
Qed.

(** [Init] never replaces the resolver. *)
Lemma loadTables_resolver tables :
  forall vm, tableResolver (st (loadTables tables vm)) = tableResolver vm.
Proof.
  induction tables as [|[tableHandle tableName] tables IH]; intros vm; [reflexivity|].
  destruct (tableResolver vm tableName) as [header|] eqn:Hres.
  - destruct (tableParser vm (uint8 (tableHandle + 1)) tableName header
                (rootNS vm, heap vm)) as [ns [err|]] eqn:Hparse.
    + by rewrite (loadTables_rejected _ _ _ _ _ _ _ Hres Hparse).
    + rewrite (loadTables_parsed _ _ _ _ _ _ Hres Hparse). cbn [prepend st].
      rewrite IH. unfold tableLoaded. by destruct (String.eqb tableName "DSDT").
  - rewrite (loadTables_absent _ _ _ _ Hres). cbn [prepend st]. apply IH.
Qed.

Lemma Init_resolver vm : tableResolver (st (Init' vm)) = tableResolver vm.
Proof.
  rewrite Init_eq.
  pose proof (loadTables_resolver [(0, "DSDT"); (1, "SSDT")] vm) as Hloop.
  destruct (loadTables _ vm) as [vm1 l [[e|]|msg]]; cbn [st prepend] in *;
    try exact Hloop.
  destruct (checkEntities_touches vmConvert maxAlloc (populated vm1)) as [(T1 & _) _].
  rewrite T1. exact Hloop.
Qed.

(** A call of [Init] that finds the DSDT whose width the VM has keeps the
    width, whether the parser accepts the table this time or not. *)
Lemma Init_width_same_DSDT vm header :
  tableResolver vm "DSDT" = Some header ->
  sizeOfIntInBits vm = widthFor header ->
  sizeOfIntInBits (st (Init' vm)) = widthFor header.
Proof.
  intros Hres Hw.
  destruct (tableParser vm 1 "DSDT" header (rootNS vm, heap vm))
    as [ns [err|]] eqn:Hparse.
  - rewrite Init_width_after_loop.
    by rewrite (loadTables_rejected 0 "DSDT" _ vm header ns err Hres Hparse).
  - exact (Init_width_parsed vm header ns Hres Hparse).
Qed.

Lemma laterState_width vm0 header :
  tableResolver vm0 "DSDT" = Some header ->
  sizeOfIntInBits vm0 = widthFor header ->
  forall vm',
    laterState populateJumpTable vmConvert maxAlloc vm0 vm' ->
    tableResolver vm' "DSDT" = Some header /\ sizeOfIntInBits vm' = widthFor header.
Proof.
  intros Hres Hw vm'. induction 1 as [|vm Hlater [IHres IHw]|vm Hlater [IHres IHw]].
  - by split.
  - split; [by rewrite Init_resolver|by apply Init_width_same_DSDT].
  - destruct (checkEntities_touches vmConvert maxAlloc vm) as [(T1 & _ & _ & T4 & _) _].
    split; [by rewrite T1|by rewrite T4].
Qed.

(** C5, as the code has it.  When [Init] parses a DSDT whose revision is
    at least 2 the integer width of the VM is 64 bits, and 32 bits when
    the revision is 0 or 1.  The width is assigned in the iteration that
    parses the DSDT, and none of the steps that follow in that call (the
    SSDT iteration, the building of the jump table, the static
    initialisation pass) changes it.  Later calls of [Init] and of
    [checkEntities] leave the width at that value as long as the
    resolver provides the same DSDT; the field is not fixed for good,
    since every call of [Init] that parses a DSDT assigns it by the
    revision of that table. *)
Theorem Init_integer_width vm header ns :
  tableResolver vm "DSDT" = Some header ->
  tableParser vm 1 "DSDT" header (rootNS vm, heap vm) = (ns, None) ->
  (2 <= Revision header -> sizeOfIntInBits (st (Init' vm)) = 64) /\
  (Revision header = 0 \/ Revision header = 1 ->
     sizeOfIntInBits (st (Init' vm)) = 32) /\
  sizeOfIntInBits (st (loadTables [(0, "DSDT")] vm))
    = (if 2 <=? Revision header then 64 else 32) /\
  (forall vm', sizeOfIntInBits (st (loadTables [(1, "SSDT")] vm')) = sizeOfIntInBits vm') /\
  (forall vm', sizeOfIntInBits (populated vm') = sizeOfIntInBits vm') /\
  (forall vm', sizeOfIntInBits (st (checkEntities' vm')) = sizeOfIntInBits vm') /\
  (forall vm',
      laterState populateJumpTable vmConvert maxAlloc
        (st (Init populateJumpTable vmConvert maxAlloc vm)) vm' ->
      tableResolver vm' "DSDT" = Some header /\
      sizeOfIntInBits vm' = sizeOfIntInBits (st (Init populateJumpTable vmConvert maxAlloc vm))).
Proof.
  intros Hres Hparse.
  pose proof (Init_width_parsed vm header ns Hres Hparse) as Hw.
  assert (Hlater : forall vm',
             laterState populateJumpTable vmConvert maxAlloc (st (Init' vm)) vm' ->
             tableResolver vm' "DSDT" = Some header /\
             sizeOfIntInBits vm' = sizeOfIntInBits (st (Init' vm))).
  { intros vm' Hl. rewrite Hw.
    apply (laterState_width (st (Init' vm)) header); [|exact Hw|exact Hl].
    by rewrite Init_resolver. }
  unfold widthFor in Hw.
  split; [intros Hrev; rewrite Hw; by destruct (Z.leb_spec 2 (Revision header)); [|lia]|].
  split; [intros Hrev; rewrite Hw; by destruct (Z.leb_spec 2 (Revision header)); [lia|]|].
  split.
  { by rewrite (loadTables_parsed 0 "DSDT" _ vm header ns Hres Hparse). }
  split; [apply loadTables_SSDT_width|].
  split; [reflexivity|].
  split; [apply checkEntities_width|exact Hlater].
Qed.

(** C8, as the code has it.  After a successful [Init] the integer width
    is 32 or 64 bits whenever the resolver provided the DSDT; when it did
    not, [Init] leaves the width as it found it (0 on a VM fresh from
    [NewVM]). *)
Theorem Init_width_after_success vm :
  res (Init populateJumpTable vmConvert maxAlloc vm) = Val None ->
  (forall header,
      tableResolver vm "DSDT" = Some header ->
      sizeOfIntInBits (st (Init populateJumpTable vmConvert maxAlloc vm)) = 32 \/
      sizeOfIntInBits (st (Init populateJumpTable vmConvert maxAlloc vm)) = 64) /\
  (tableResolver vm "DSDT" = None ->
     sizeOfIntInBits (st (Init populateJumpTable vmConvert maxAlloc vm)) = sizeOfIntInBits vm).
Proof.
  intros Hok. split; [|apply Init_width_absent].
  intros header Hres.
  destruct (tableParser vm 1 "DSDT" header (rootNS vm, heap vm)) as [ns [err|]] eqn:Hparse.
  - exfalso. revert Hok. rewrite Init_eq.
    by rewrite (loadTables_rejected 0 "DSDT" _ vm header ns err Hres Hparse).
  - rewrite (Init_width_parsed vm header ns Hres Hparse). unfold widthFor.
    destruct (2 <=? Revision header); auto.
Qed.

(** C7.  Once an error is recorded the visitor does nothing: it neither
    classifies the entity nor allocates nor pads.  If the first size
    that fails to evaluate fails with [e], the pass returns [e], leaves
    the VM as the failing call found it, and the visits that follow the
    failing one leave only their entry in the log.  [Init] ends with the
    pass, so this is what [Init] returns. *)
Theorem checkEntities_first_error vm :
  (forall c depth ent e,
      chk_err c = Some e ->
      checkVisitor vmConvert maxAlloc depth ent c =
      mkOut c [EvVisitor depth ent] (Val false)) /\
  (forall pre depth ent post op addr size ctx' v e,
      passVisits vmConvert maxAlloc vm = pre ++ (depth, ent) :: post ->
      chk_err (st (visitEach vmConvert maxAlloc pre (passStart vm))) = None ->
      unwrapped ent = Some (bufferEntity op addr size) ->
      vmConvert (chk_vm (st (visitEach vmConvert maxAlloc pre (passStart vm))))
                (chk_ctx (st (visitEach vmConvert maxAlloc pre (passStart vm))))
                size valueTypeInteger = (ctx', (v, Some e)) ->
      checkEntities' vm =
      mkOut (chk_vm (st (visitEach vmConvert maxAlloc pre (passStart vm))))
            (log (visitEach vmConvert maxAlloc pre (passStart vm))
               ++ [EvVisitor depth ent; EvConvert size valueTypeInteger]
               ++ map visited post)
            (Val (Some e))) /\
  (forall vm0 vm1 l,
      loadTables [(0, "DSDT"); (1, "SSDT")] vm0 = mkOut vm1 l (Val None) ->
      Init' vm0 =
      prepend (l ++ [EvPopulateJumpTable]) (checkEntities' (populated vm1))).
Proof.
  split; [intros c depth ent e; apply checkVisitor_after_error|].
  split; [intros pre depth ent post op addr size ctx' v e;
          apply checkEntities_stops_at_error|].
  intros vm0 vm1 l Hloop. by rewrite Init_eq, Hloop.
Qed.

(** *** The tables *)

(** C6.  [Init] asks the resolver for the DSDT, then for the SSDT, by
    name.  A table the resolver does not have is skipped without an
    error.  When the parser rejects a table that is present, [Init]
    returns at once: the error message is the module of the parser error,
    then ": ", then its message; no later table is asked for, the jump
    table is not built and the static initialisation pass does not run
    (the log ends with the call of the parser, and the VM is the one the
    parser left).  Otherwise the jump table is built and the pass runs. *)
Theorem Init_tables vm :
  (* neither table present *)
  (tableResolver vm "DSDT" = None ->
   tableResolver vm "SSDT" = None ->
   Init' vm =
   prepend [EvLookupTable "DSDT"; EvLookupTable "SSDT"; EvPopulateJumpTable]
     (checkEntities' (populated vm))) /\
  (* DSDT rejected *)
  (forall header ns err,
      tableResolver vm "DSDT" = Some header ->
      tableParser vm 1 "DSDT" header (rootNS vm, heap vm) = (ns, Some err) ->
      Init' vm =
      mkOut (set_namespace ns vm)
            [EvLookupTable "DSDT"; EvParseAML 1 "DSDT" header]
            (Val (Some (mkError (Module_ err +:+ ": " +:+ kernelError_Error err))))) /\
  (* DSDT absent, SSDT rejected *)
  (forall header ns err,
      tableResolver vm "DSDT" = None ->
      tableResolver vm "SSDT" = Some header ->
      tableParser vm 2 "SSDT" header (rootNS vm, heap vm) = (ns, Some err) ->
      Init' vm =
      mkOut (set_namespace ns vm)
            [EvLookupTable "DSDT"; EvLookupTable "SSDT"; EvParseAML 2 "SSDT" header]
            (Val (Some (mkError (Module_ err +:+ ": " +:+ kernelError_Error err))))) /\
  (* DSDT parsed, SSDT rejected *)
  (forall header1 root1 heap1 header2 ns2 err,
      tableResolver vm "DSDT" = Some header1 ->
      tableParser vm 1 "DSDT" header1 (rootNS vm, heap vm) = ((root1, heap1), None) ->
      tableResolver vm "SSDT" = Some header2 ->
      tableParser vm 2 "SSDT" header2 (root1, heap1) = (ns2, Some err) ->
      Init' vm =
      mkOut (set_namespace ns2 (tableLoaded "DSDT" header1 (root1, heap1) vm))
            [EvLookupTable "DSDT"; EvParseAML 1 "DSDT" header1;
             EvLookupTable "SSDT"; EvParseAML 2 "SSDT" header2]
            (Val (Some (mkError (Module_ err +:+ ": " +:+ kernelError_Error err))))) /\
  (* DSDT parsed, SSDT absent *)
  (forall header1 ns1,
      tableResolver vm "DSDT" = Some header1 ->
      tableParser vm 1 "DSDT" header1 (rootNS vm, heap vm) = (ns1, None) ->
      tableResolver vm "SSDT" = None ->
      Init' vm =
      prepend [EvLookupTable "DSDT"; EvParseAML 1 "DSDT" header1;
               EvLookupTable "SSDT"; EvPopulateJumpTable]
        (checkEntities' (populated (tableLoaded "DSDT" header1 ns1 vm)))) /\
  (* DSDT absent, SSDT parsed *)
  (forall header2 ns2,
      tableResolver vm "DSDT" = None ->
      tableResolver vm "SSDT" = Some header2 ->
      tableParser vm 2 "SSDT" header2 (rootNS vm, heap vm) = (ns2, None) ->
      Init' vm =
      prepend [EvLookupTable "DSDT"; EvLookupTable "SSDT";
               EvParseAML 2 "SSDT" header2; EvPopulateJumpTable]
        (checkEntities' (populated (set_namespace ns2 vm)))) /\
  (* both parsed *)
  (forall header1 root1 heap1 header2 ns2,
      tableResolver vm "DSDT" = Some header1 ->
      tableParser vm 1 "DSDT" header1 (rootNS vm, heap vm) = ((root1, heap1), None) ->
      tableResolver vm "SSDT" = Some header2 ->
      tableParser vm 2 "SSDT" header2 (root1, heap1) = (ns2, None) ->
      Init' vm =
      prepend [EvLookupTable "DSDT"; EvParseAML 1 "DSDT" header1;
               EvLookupTable "SSDT"; EvParseAML 2 "SSDT" header2;
               EvPopulateJumpTable]
        (checkEntities'
           (populated (set_namespace ns2 (tableLoaded "DSDT" header1 (root1, heap1) vm))))).
Proof.
  repeat split.
  - intros H1 H2. rewrite Init_eq.
    rewrite (loadTables_absent 0 "DSDT" _ vm H1), (loadTables_absent 1 "SSDT" _ vm H2).
    reflexivity.
  - intros header ns err H1 P1. rewrite Init_eq.
    by rewrite (loadTables_rejected 0 "DSDT" _ vm header ns err H1 P1).
  - intros header ns err H1 H2 P2. rewrite Init_eq.
    rewrite (loadTables_absent 0 "DSDT" _ vm H1).
    by rewrite (loadTables_rejected 1 "SSDT" _ vm header ns err H2 P2).
  - intros header1 root1 heap1 header2 ns2 err H1 P1 H2 P2. rewrite Init_eq.
    rewrite (loadTables_parsed 0 "DSDT" _ vm header1 _ H1 P1).
    by rewrite (loadTables_rejected 1 "SSDT" _ (tableLoaded "DSDT" header1 (root1, heap1) vm)
                  header2 ns2 err H2 P2).
  - intros header1 ns1 H1 P1 H2. rewrite Init_eq.
    rewrite (loadTables_parsed 0 "DSDT" _ vm header1 _ H1 P1).
    rewrite (loadTables_absent 1 "SSDT" _ (tableLoaded "DSDT" header1 ns1 vm) H2).
    reflexivity.
  - intros header2 ns2 H1 H2 P2. rewrite Init_eq.
    rewrite (loadTables_absent 0 "DSDT" _ vm H1).
    rewrite (loadTables_parsed 1 "SSDT" _ vm header2 _ H2 P2).
    reflexivity.
  - intros header1 root1 heap1 header2 ns2 H1 P1 H2 P2.
    rewrite Init_eq.
    rewrite (loadTables_parsed 0 "DSDT" _ vm header1 _ H1 P1).
    rewrite (loadTables_parsed 1 "SSDT" _ (tableLoaded "DSDT" header1 (root1, heap1) vm)
               header2 ns2 H2 P2).
    reflexivity.
Qed.

End InitFacts.

(** ** The properties on the sample namespaces *)

(** The named buffer [BUF0]: declared size 4, initialiser of 2 bytes. *)
Lemma checkEntities_sizes_buffer_witness :
  Z.of_nat (length (payload (st (checkEntities sampleConvert 100 sampleVM)) 1)) = 4 /\
  payload (st (checkEntities sampleConvert 100 sampleVM)) 1 = [x01; x02; x00; x00].
Proof.
  assert (Heval : sizeEvaluatesTo sampleConvert 100 sampleVM 1 4).
  { intros pre depth ent post op size Hsplit Hbuf. cbn in Hsplit.
    do 5 (destruct pre as [|? pre];
          [injection Hsplit as <- <- <-; cbn in Hbuf;
           first [discriminate Hbuf
                 |injection Hbuf as <- <-; eexists; reflexivity]
          |injection Hsplit as <- Hsplit]).
    by destruct pre. }
  pose proof (checkEntities_sizes_buffer sampleConvert 100 sampleVM
                (namedEntity opName "BUF0"
                   [VEntity (bufferEntity opBuffer 1 (VUint64 4))])
                opBuffer 1%N (VUint64 4) 4
                eq_refl ltac:(cbn; tauto) eq_refl Heval
                ltac:(lia) ltac:(vm_compute; reflexivity))
    as (Hlen & _).
  split; [exact Hlen|reflexivity].
Defined.

(** A buffer inside a method body keeps its nil payload, and a buffer
    without initialiser gets its zero bytes. *)
Example checkEntities_sample :
  heap (st (checkEntities sampleConvert 100 sampleVM)) !! 2%N = None /\
  heap (st (checkEntities sampleConvert 100 sampleVM)) !! 3%N = Some [x00; x00; x00] /\
  res (checkEntities sampleConvert 100 sampleVM) = Val None.
Proof. repeat split. Qed.

(** Address 2 is the buffer in the body of [MTH0]. *)
Lemma checkEntities_skips_methods_witness :
  heap (st (checkEntities sampleConvert 100 sampleVM)) !! 2%N = heap sampleVM !! 2%N.
Proof.
  apply (proj2 (proj2 (proj2 (checkEntities_skips_methods sampleConvert 100 sampleVM)))).
  intros ent Hin. cbn in Hin.
  destruct Hin as [<-|[<-|[<-|[<-|[<-|[]]]]]]; discriminate.
Defined.

(** The buffer at address 4 has the empty string for its size: the pass
    returns the error of the converter, the buffer at address 3, visited
    before, is initialised, the one at address 5, visited after, is
    not. *)
Lemma checkEntities_first_error_witness :
  res (checkEntities sampleConvert 100 brokenVM) = Val (Some errConversionFromEmptyString) /\
  heap (st (checkEntities sampleConvert 100 brokenVM)) !! 3%N = Some [x00; x00; x00] /\
  heap (st (checkEntities sampleConvert 100 brokenVM)) !! 5%N = None.
Proof.
  rewrite (proj1 (proj2 (checkEntities_first_error (populateWith tt) sampleConvert 100 brokenVM))
             [(0, brokenRoot); (1, bufferEntity opBuffer 3 (VUint64 3));
              (1, scopeEntity 16 "_SB_" [bufferEntity opBuffer 4 (VString "")])]
             2 (bufferEntity opBuffer 4 (VString ""))
             [(1, bufferEntity opBuffer 5 (VUint64 2))]
             opBuffer 4%N (VString "") newExecContext VNil errConversionFromEmptyString
             eq_refl eq_refl eq_refl eq_refl).
  repeat split.
Defined.

(** A DSDT of revision 2: 64-bit integers, and still so after a second
    call of [Init] with the same tables. *)
Lemma Init_integer_width_witness :
  sizeOfIntInBits (st (Init (populateWith tt) sampleConvert 100 (dsdtVM 2))) = 64 /\
  sizeOfIntInBits
    (st (Init (populateWith tt) sampleConvert 100
           (st (Init (populateWith tt) sampleConvert 100 (dsdtVM 2)))))
  = sizeOfIntInBits (st (Init (populateWith tt) sampleConvert 100 (dsdtVM 2))).
Proof.
  pose proof (Init_integer_width (populateWith tt) sampleConvert 100 (dsdtVM 2)
                (mkHeader 2) (sampleRoot, sampleHeap) eq_refl eq_refl)
    as (H64 & _ & _ & _ & _ & _ & Hlater).
  split; [apply H64; cbn; lia|].
  apply Hlater. apply later_Init, later_now.
Defined.

Example Init_revision_1 :
  sizeOfIntInBits (st (Init (populateWith tt) sampleConvert 100 (dsdtVM 1))) = 32.
Proof. reflexivity. Qed.

(** The parser rejects the DSDT: [Init] returns the wrapped error right
    after the call of the parser. *)
Lemma Init_tables_witness :
  Init (populateWith tt) sampleConvert 100 rejectingVM =
  mkOut rejectingVM
        [EvLookupTable "DSDT"; EvParseAML 1 "DSDT" (mkHeader 1)]
        (Val (Some (mkError "acpi_aml_parser: unexpected end of stream"))).
Proof.
  exact (proj1 (proj2 (Init_tables (populateWith tt) sampleConvert 100 rejectingVM))
           (mkHeader 1) (rootNS rejectingVM, heap rejectingVM)
           (mkKernelError "acpi_aml_parser" "unexpected end of stream")
           eq_refl eq_refl).
Defined.

(** Without any table [Init] succeeds. *)
Example Init_without_tables :
  res (Init (populateWith tt) sampleConvert 100 freshVM) = Val None /\
  log (Init (populateWith tt) sampleConvert 100 freshVM) =
    [EvLookupTable "DSDT"; EvLookupTable "SSDT"; EvPopulateJumpTable]
      ++ map visited ((0, rootNS freshVM) :: map (fun e => (1, e)) (Children (rootNS freshVM))).
Proof. split; reflexivity. Qed.

(** With a DSDT the width is one of the two. *)
Lemma Init_width_after_success_witness :
  sizeOfIntInBits (st (Init (populateWith tt) sampleConvert 100 (dsdtVM 2))) = 32 \/
  sizeOfIntInBits (st (Init (populateWith tt) sampleConvert 100 (dsdtVM 2))) = 64.
Proof.
  exact (proj1 (Init_width_after_success (populateWith tt) sampleConvert 100 (dsdtVM 2)
                  eq_refl) (mkHeader 2) eq_refl).
Defined.

(** C2 as stated fails: the buffer in the body of [MTH0] has a size that
    evaluates to 8 and no payload, and after a pass that succeeds it
    still has no payload. *)
Lemma checkEntities_leaves_method_buffer :
  In (bufferEntity opBuffer 2 (VUint64 8)) (allEntities (rootNS sampleVM)) /\
  (forall (vm : VM unit) ctx,
      sampleConvert vm ctx (VUint64 8) valueTypeInteger = (ctx, (VUint64 8, None))) /\
  heap sampleVM !! 2%N = None /\
  res (checkEntities sampleConvert 100 sampleVM) = Val None /\
  heap (st (checkEntities sampleConvert 100 sampleVM)) !! 2%N = None /\
  Z.of_nat (length (payload (st (checkEntities sampleConvert 100 sampleVM)) 2))
    <> Z.max 8 (Z.of_nat (length (payload sampleVM 2))).
Proof.
  split; [cbn; tauto|]. split; [reflexivity|]. split; [reflexivity|].
  split; [reflexivity|]. split; [reflexivity|]. vm_compute. discriminate.
Qed.

(** C5 as stated fails: the width is not fixed for good.  [Init] parsed a
    DSDT of revision 2 and the width is 64; when the resolver then comes
    to provide a DSDT of revision 1, another call of [Init] makes it
    32. *)
Lemma Init_width_changed_by_later_Init :
  res (Init (populateWith tt) sampleConvert 100 (dsdtVM 2)) = Val None /\
  sizeOfIntInBits (st (Init (populateWith tt) sampleConvert 100 (dsdtVM 2))) = 64 /\
  sizeOfIntInBits
    (st (Init (populateWith tt) sampleConvert 100
           (withResolver (onlyDSDT 1)
              (st (Init (populateWith tt) sampleConvert 100 (dsdtVM 2)))))) = 32.
Proof. repeat split. Qed.

(** C8 as stated fails: without a DSDT a successful [Init] leaves the
    width at 0, the value [NewVM] gave it. *)
Lemma Init_width_unset_without_DSDT :
  res (Init (populateWith tt) sampleConvert 100 freshVM) = Val None /\
  sizeOfIntInBits (st (Init (populateWith tt) sampleConvert 100 freshVM)) = 0 /\
  ~ (sizeOfIntInBits (st (Init (populateWith tt) sampleConvert 100 freshVM)) = 32 \/
     sizeOfIntInBits (st (Init (populateWith tt) sampleConvert 100 freshVM)) = 64).
Proof.
  split; [reflexivity|]. split; [reflexivity|].
  intros [Hw|Hw]; vm_compute in Hw; discriminate.
Qed.

(** C3.  The pass panics on a named entity that has no operand besides
    its name: the unwrap indexes [args[0]] of an empty slice.  [Init]
    panics with it when the DSDT decodes to such a namespace.  The pass
    also panics on a buffer without initialiser whose size is beyond the
    longest slice there is. *)
Theorem checkEntities_panics_on_bare_named :
  res (checkEntities sampleConvert 100 bareNamedVM) = Panic "index out of range" /\
  res (Init (populateWith tt) sampleConvert 100 bareNamedDsdtVM)
    = Panic "index out of range" /\
  res (checkEntities sampleConvert maxInt hugeBufferVM)
    = Panic "makeslice: len out of range".
Proof. repeat split. Qed.


(** ** More on the interpreter loop *)

Section InterpreterMore.

Context {World : Type}.
Implicit Types (vm : VM (opHandler World)) (s : execState World).

Lemma execBlock_cases vm block s :
  exists done rest s1,
    Children block = done ++ rest /\
    straight vm done s s1 /\
    blockStop vm done rest s1 (execBlock vm block s).
Proof.
  unfold execBlock.
  destruct (execLoop_outcome vm (Children block) (length (Children block))
              [] (Children block) s s) as (d & r & s1 & H1 & H2 & H3);
    [reflexivity|lia|constructor|].
  rewrite after_nil in H3. by exists d, r, s1.
Qed.

(** X1.  Whatever the outcome of [execBlock] (nil, an error or a panic),
    the instructions it dispatched are an initial segment of the children
    of the block, in their order: none is skipped, repeated or taken out
    of turn. *)
Theorem execBlock_log_prefix vm block s :
  exists rest,
    map dispatched (Children block) = log (execBlock vm block s) ++ rest.
Proof.
  destruct (execBlock_cases vm block s) as (done & rest & s1 & Hsplit & _ & Hstop).
  rewrite Hsplit, map_app.
  destruct Hstop as [_ ->|_ ->|instr rest' h s2 e -> _ _ _ ->
                    |instr rest' h s2 msg -> _ _ _ ->|instr rest' -> _ _ ->];
    cbn [log].
  - by exists (map dispatched rest).
  - by exists (map dispatched rest).
  - exists (map dispatched rest'). rewrite map_app, <- app_assoc. reflexivity.
  - exists (map dispatched rest'). rewrite map_app, <- app_assoc. reflexivity.
  - by exists (map dispatched (instr :: rest')).
Qed.

(** X2.  If [execBlock] returns nil and the signal is NextOpcode when it
    returns, every child of the block was dispatched, once and in order. *)
Theorem execBlock_ran_all vm block s :
  res (execBlock vm block s) = Val None ->
  ctrlFlow (ctx (st (execBlock vm block s))) = ctrlFlowTypeNextOpcode ->
  log (execBlock vm block s) = map dispatched (Children block) /\
  straight vm (Children block) s (st (execBlock vm block s)).
Proof.
  destruct (execBlock_cases vm block s) as (done & rest & s1 & Hsplit & Hrun & Hstop).
  destruct Hstop as [-> ->|Hsig ->|instr rest' h s2 e _ _ _ _ ->
                    |instr rest' h s2 msg _ _ _ _ ->|instr rest' _ _ _ ->];
    cbn [res st log]; try discriminate.
  - intros _ _. rewrite Hsplit, app_nil_r. by split.
  - intros _ Hnext. contradiction.
Qed.

Lemma straight_keeps_signal vm done s s1 :
  straight vm done s s1 ->
  Forall (wellBehaved vm) done ->
  ctrlFlow (ctx s) = ctrlFlowTypeNextOpcode ->
  ctrlFlow (ctx s1) = ctrlFlowTypeNextOpcode.
Proof.
  induction 1 as [s|instr l h s s' s'' Hcf Hjt Hh Hrun IH]; intros Hall Hnext.
  - exact Hnext.
  - inversion Hall as [|? ? (h' & Hjt' & Hgood) Hall']; subst.
    apply IH; [exact Hall'|].
    rewrite Hjt in Hjt'. injection Hjt' as <-.
    destruct (Hgood s Hcf) as (s2 & Hh' & Hnext'). congruence.
Qed.

(** X3.  A block whose instructions all have a handler that returns
    without an error and keeps the signal at NextOpcode runs to its end:
    entered under NextOpcode, [execBlock] returns nil, has dispatched
    every child and leaves the signal at NextOpcode. *)
Theorem execBlock_runs_to_end vm block s :
  Forall (wellBehaved vm) (Children block) ->
  ctrlFlow (ctx s) = ctrlFlowTypeNextOpcode ->
  res (execBlock vm block s) = Val None /\
  log (execBlock vm block s) = map dispatched (Children block) /\
  ctrlFlow (ctx (st (execBlock vm block s))) = ctrlFlowTypeNextOpcode.
Proof.
  intros Hall Hnext.
  destruct (execBlock_cases vm block s) as (done & rest & s1 & Hsplit & Hrun & Hstop).
  rewrite Hsplit in Hall. apply Forall_app in Hall as [Hdone Hrest].
  pose proof (straight_keeps_signal vm done s s1 Hrun Hdone Hnext) as Hnext1.
  destruct Hstop as [-> ->|Hsig ->|instr rest' h s2 e -> _ Hjt Hh ->
                    |instr rest' h s2 msg -> _ Hjt Hh ->|instr rest' -> _ Hjt ->].
  - cbn [res st log]. rewrite Hsplit, app_nil_r. by repeat split.
  - contradiction.
  - exfalso. inversion Hrest as [|? ? (h' & Hjt' & Hgood) _]; subst.
    rewrite Hjt in Hjt'. injection Hjt' as <-.
    destruct (Hgood s1 Hnext1) as (s3 & Hh' & _). congruence.
  - exfalso. inversion Hrest as [|? ? (h' & Hjt' & Hgood) _]; subst.
    rewrite Hjt in Hjt'. injection Hjt' as <-.
    destruct (Hgood s1 Hnext1) as (s3 & Hh' & _). congruence.
  - exfalso. inversion Hrest as [|? ? (h' & Hjt' & _) _]; subst. congruence.
Qed.

(** The loop, from any index, is the recursion on what is left of the
    list. *)
Lemma execLoop_runList vm instrList fuel :
  forall i s,
    (length instrList - i <= fuel)%nat ->
    execLoop vm instrList (length instrList) fuel i s =
    runList vm (skipn i instrList) s.
Proof.
  induction fuel as [|fuel IH]; intros i s Hfuel.
  - rewrite skipn_all2 by lia. reflexivity.
  - rewrite execLoop_step.
    destruct (Nat.ltb_spec i (length instrList)) as [Hlt|Hge].
    + destruct (nth_error instrList i) as [instr|] eqn:Hnth;
        [|apply nth_error_None in Hnth; lia].
      assert (Hskip : skipn i instrList = instr :: skipn (S i) instrList).
      { rewrite <- (firstn_skipn i instrList) in Hnth at 1.
        rewrite nth_error_app2 in Hnth by (rewrite length_firstn; lia).
        rewrite length_firstn, Nat.min_l, Nat.sub_diag in Hnth by lia.
        destruct (skipn i instrList) as [|x rest] eqn:Hsk; [discriminate|].
        injection Hnth as ->. f_equal.
        replace (S i) with (1 + i)%nat by lia.
        rewrite <- skipn_skipn, Hsk. reflexivity. }
      rewrite Hskip. cbn [runList andb]. rewrite bind_gets.
      destruct (ctrlFlowType_eqb (ctrlFlow (ctx s)) ctrlFlowTypeNextOpcode);
        [|reflexivity].
      rewrite bind_eq. unfold dispatch.
      destruct (jumpTable vm (getOpcode instr)) as [handler|]; [|reflexivity].
      destruct (handler instr s) as [s' [[e|]|msg]]; cbn [res st log]; try reflexivity.
      rewrite IH by lia. reflexivity.
    + rewrite skipn_all2 by lia. reflexivity.
Qed.

Lemma execBlock_runList vm block s :
  execBlock vm block s = runList vm (Children block) s.
Proof. unfold execBlock. rewrite execLoop_runList by lia. reflexivity. Qed.

Lemma runList_pending vm instrList s :
  ctrlFlow (ctx s) <> ctrlFlowTypeNextOpcode ->
  runList vm instrList s = mkOut s [] (Val None).
Proof.
  intros Hcf. apply ctrlFlowType_eqb_neq in Hcf.
  destruct instrList; [reflexivity|].
  cbn [runList]. rewrite bind_gets, Hcf. reflexivity.
Qed.

Lemma runList_app vm l1 l2 :
  forall s,
    runList vm (l1 ++ l2) s =
    bind (runList vm l1)
         (fun err => match err with
                     | Some e => ret (Some e)
                     | None => runList vm l2
                     end) s.
Proof.
  induction l1 as [|instr l1 IH]; intros s.
  - cbn [app runList]. by rewrite bind_ret.
  - cbn [app runList]. rewrite bind_bind, !bind_gets.
    destruct (ctrlFlowType_eqb (ctrlFlow (ctx s)) ctrlFlowTypeNextOpcode) eqn:Hcf.
    + rewrite bind_bind. apply bind_ext. intros [e|] s'.
      * by rewrite bind_ret.
      * apply IH.
    + rewrite bind_ret. apply ctrlFlowType_eqb_neq in Hcf.
      by rewrite runList_pending.
Qed.

(** X4.  Running a block whose children are those of a first block
    followed by those of a second is running the first block and then,
    unless it failed, the second: a signal raised in the first part keeps
    the second part from executing anything. *)
Theorem execBlock_concat vm op name op1 name1 l1 op2 name2 l2 s :
  execBlock vm (scopeEntity op name (l1 ++ l2)) s =
  thenBlock vm (scopeEntity op1 name1 l1) (scopeEntity op2 name2 l2) s.
Proof.
  unfold thenBlock. rewrite execBlock_runList. cbn [Children].
  rewrite runList_app. rewrite bind_eq, (bind_eq (execBlock vm _)).
  rewrite execBlock_runList. cbn [Children].
  destruct (res (runList vm l1 s)) as [[e|]|msg]; try reflexivity.
  by rewrite execBlock_runList.
Qed.

End InterpreterMore.

(** Three increments run to the end. *)
Lemma execBlock_runs_to_end_witness :
  res (execBlock toyVM (toyBlock [1; 1; 1]) (mkExec newExecContext 0%nat)) = Val None /\
  world (st (execBlock toyVM (toyBlock [1; 1; 1]) (mkExec newExecContext 0%nat))) = 3%nat.
Proof.
  assert (Hgood : wellBehaved toyVM (unnamedEntity 1 [])).
  { eexists. split; [reflexivity|].
    intros s Hs. eexists. split; [reflexivity|exact Hs]. }
  split; [|reflexivity].
  apply (execBlock_runs_to_end toyVM (toyBlock [1; 1; 1]) (mkExec newExecContext 0%nat)).
  - repeat constructor; exact Hgood.
  - reflexivity.
Defined.

(** The block of two increments returned nil under NextOpcode. *)
Lemma execBlock_ran_all_witness :
  log (execBlock toyVM (toyBlock [1; 1]) (mkExec newExecContext 0%nat)) =
  [EvDispatch 1 (unnamedEntity 1 []); EvDispatch 1 (unnamedEntity 1 [])].
Proof.
  exact (proj1 (execBlock_ran_all toyVM (toyBlock [1; 1]) (mkExec newExecContext 0%nat)
                  eq_refl eq_refl)).
Defined.


(** ** More on the static initialisation pass *)

Lemma cellGrows_refl old : cellGrows old old.
Proof.
  destruct old as [data|]; cbn; [|by left].
  exists O. cbn. by rewrite app_nil_r.
Qed.

Lemma cellGrows_trans c1 c2 c3 :
  cellGrows c1 c2 -> cellGrows c2 c3 -> cellGrows c1 c3.
Proof.
  destruct c1 as [d1|]; cbn.
  - intros [n ->]. cbn. intros [m ->]. exists (n + m)%nat.
    by rewrite repeat_app, app_assoc.
  - intros [->|[n ->]]; cbn; [tauto|].
    intros [m ->]. right. exists (n + m)%nat. by rewrite repeat_app.
Qed.

Section PassMore.

Context {H : Type}.
Variable vmConvert :
  VM H -> execContext -> value -> valueType -> execContext * (value * option Error).
Variable maxAlloc : Z.

Implicit Types (c : checkState H) (vm : VM H).

Local Abbreviation visitor := (checkVisitor vmConvert maxAlloc).
Local Abbreviation visitEach' := (visitEach vmConvert maxAlloc).
Local Abbreviation checkEntities' := (checkEntities vmConvert maxAlloc).

Lemma heapGrows_refl vm : heapGrows vm vm.
Proof. intros a. apply cellGrows_refl. Qed.

Lemma heapGrows_trans vm1 vm2 vm3 :
  heapGrows vm1 vm2 -> heapGrows vm2 vm3 -> heapGrows vm1 vm3.
Proof. intros H12 H23 a. eapply cellGrows_trans; [apply H12|apply H23]. Qed.

Lemma heapGrows_set_data addr data vm :
  cellGrows (heap vm !! addr) (Some data) ->
  heapGrows vm (set_data addr data vm).
Proof.
  intros Hcell a. unfold set_data; cbn [heap].
  destruct (decide (a = addr)) as [->|Hne].
  - by rewrite lookup_insert_eq.
  - rewrite lookup_insert_ne by congruence. apply cellGrows_refl.
Qed.

Local Ltac heapstep :=
  msimpl;
  cbn [prepend st res log ret with_data set_data chk_vm chk_err chk_ctx heap];
  rewrite ?lookup_insert_eq; cbn [default from_option id].

(** What [initBuffer] does to the heap, and how its result relates to the
    recorded error. *)
Lemma initBuffer_effect addr size c :
  heapGrows (chk_vm c) (chk_vm (st (initBuffer vmConvert maxAlloc addr size c))) /\
  (res (initBuffer vmConvert maxAlloc addr size c) = Val true ->
     chk_err (st (initBuffer vmConvert maxAlloc addr size c)) = None /\
     is_Some (heap (chk_vm (st (initBuffer vmConvert maxAlloc addr size c))) !! addr)) /\
  (res (initBuffer vmConvert maxAlloc addr size c) = Val false ->
     chk_err (st (initBuffer vmConvert maxAlloc addr size c)) <> None).
Proof.
  unfold initBuffer. rewrite bind_convertSize.
  destruct (vmConvert _ _ _ _) as [ctx' [v [e|]]]; cbn [fst snd]; msimpl.
  { cbn. split; [apply heapGrows_refl|]. split; [discriminate|congruence]. }
  destruct v as [|n| | | |]; cbn [assertUint64]; msimpl;
    try (cbn; split; [apply heapGrows_refl|]; split; discriminate).
  unfold make_bytes, append_bytes, store_data.
  destruct (heap (chk_vm c) !! addr) as [data|] eqn:Hcell.
  - heapstep. rewrite Hcell. heapstep.
    destruct (uint64 (Z.of_nat (length data)) <? n); heapstep.
    + destruct (_ <=? maxAlloc); heapstep;
        [|split; [apply heapGrows_refl|]; split; discriminate].
      destruct (_ <=? maxAlloc); heapstep;
        [|split; [apply heapGrows_refl|]; split; discriminate].
      split; [|split; [|discriminate]].
      * apply heapGrows_set_data. rewrite Hcell. cbn. eauto.
      * intros _. split; [reflexivity|]. eauto.
    + split; [apply heapGrows_refl|]. split; [|discriminate].
      intros _. split; [reflexivity|]. rewrite Hcell. eauto.
  - heapstep.
    assert (Hfresh : heapGrows (chk_vm c)
                       (set_data addr (repeat x00 (Z.to_nat n)) (chk_vm c))).
    { apply heapGrows_set_data. rewrite Hcell. cbn. eauto. }
    destruct (n <=? maxAlloc); heapstep;
      [|split; [apply heapGrows_refl|]; split; discriminate].
    destruct (_ <? n); heapstep.
    + destruct (_ <=? maxAlloc); heapstep;
        [|split; [exact Hfresh|]; split; discriminate].
      destruct (_ <=? maxAlloc); heapstep;
        [|split; [exact Hfresh|]; split; discriminate].
      split; [|split; [|discriminate]].
      * eapply heapGrows_trans; [exact Hfresh|].
        apply heapGrows_set_data. unfold set_data; cbn [heap].
        rewrite lookup_insert_eq. cbn. eauto.
      * intros _. split; [reflexivity|]. eauto.
    + split; [exact Hfresh|]. split; [|discriminate].
      intros _. split; [reflexivity|]. eauto.
Qed.

Lemma checkVisitor_grows depth ent c :
  heapGrows (chk_vm c) (chk_vm (st (visitor depth ent c))).
Proof.
  rewrite checkVisitor_eq.
  destruct (chk_err c); [apply heapGrows_refl|].
  destruct (unwrapped ent) as [[op name cs|op name ac cs|op name args|op addr size|op args]|];
    try apply heapGrows_refl.
  cbn [prepend st]. apply initBuffer_effect.
Qed.

Lemma visitEach_grows visits :
  forall c, heapGrows (chk_vm c) (chk_vm (st (visitEach' visits c))).
Proof.
  induction visits as [|[d ent] visits IH]; intros c; [apply heapGrows_refl|].
  rewrite visitEach_cons, bind_eq.
  destruct (res (visitor d ent c)) as [b|msg]; [|apply checkVisitor_grows].
  cbn [prepend st]. eapply heapGrows_trans; [apply checkVisitor_grows|apply IH].
Qed.

(** X5.  Whatever the namespace, the converter and the outcome (nil, an
    error or a panic), the pass only ever appends zero bytes: a buffer
    that had a payload keeps every byte of it, followed by zeros, and a
    buffer whose payload was nil is left nil or with a payload of zeros.
    No payload is shortened, rewritten or set back to nil. *)
Theorem checkEntities_appends_zeros vm addr :
  match heap vm !! addr with
  | Some data =>
      exists n, heap (st (checkEntities vmConvert maxAlloc vm)) !! addr = Some (data ++ repeat x00 n)
  | None =>
      heap (st (checkEntities vmConvert maxAlloc vm)) !! addr = None \/
      exists n, heap (st (checkEntities vmConvert maxAlloc vm)) !! addr = Some (repeat x00 n)
  end.
Proof.
  rewrite checkEntities_eq. cbn [st].
  rewrite (checkEntities_visitEach vmConvert maxAlloc vm).
  exact (visitEach_grows (passVisits vmConvert maxAlloc vm) (passStart vm) addr).
Qed.

(** X6.  The pass writes to payloads only: the tree, the integer width,
    the jump table, the resolver and the parser of the VM are the same
    after it, so that [Lookup] answers every path as it did before. *)
Theorem checkEntities_keeps_namespace vm :
  sameButHeap vm (st (checkEntities vmConvert maxAlloc vm)) /\
  forall absPath,
    Lookup (st (checkEntities vmConvert maxAlloc vm)) absPath = Lookup vm absPath.
Proof.
  destruct (checkEntities_touches vmConvert maxAlloc vm) as [Hsame _].
  split; [exact Hsame|].
  destruct Hsame as (_ & _ & Hroot & _).
  intros absPath. unfold Lookup. by rewrite Hroot.
Qed.

(** X7.  Handed anything but a buffer (bare or named), the visitor leaves
    the VM, the recorded error and the context as they are and does not
    call the converter. *)
Theorem checkVisitor_leaves_non_buffers depth ent c :
  bufferAddr ent = None ->
  st (checkVisitor vmConvert maxAlloc depth ent c) = c /\
  log (checkVisitor vmConvert maxAlloc depth ent c) = [EvVisitor depth ent].
Proof.
  unfold bufferAddr. intros Hnone. rewrite checkVisitor_eq.
  destruct (chk_err c); [by split|].
  destruct (unwrapped ent) as [[op name cs|op name ac cs|op name args|op addr size|op args]|];
    try discriminate; by split.
Qed.

(** The log of one call of the visitor. *)
Lemma checkVisitor_log depth ent c :
  log (visitor depth ent c) = [EvVisitor depth ent] \/
  exists op addr size,
    unwrapped ent = Some (bufferEntity op addr size) /\
    log (visitor depth ent c) = [EvVisitor depth ent; EvConvert size valueTypeInteger].
Proof.
  rewrite checkVisitor_eq.
  destruct (chk_err c); [by left|].
  destruct (unwrapped ent) as [[op name cs|op name ac cs|op name args|op addr size|op args]|];
    try by left.
  right. exists op, addr, size. split; [reflexivity|].
  cbn [prepend log app].
  by rewrite (proj2 (initBuffer_touches vmConvert maxAlloc addr size c)).
Qed.

Lemma visitEach_converts visits :
  forall c arg toType,
    In (EvConvert arg toType) (log (visitEach' visits c)) ->
    toType = valueTypeInteger /\
    exists depth ent op addr,
      In (depth, ent) visits /\ unwrapped ent = Some (bufferEntity op addr arg).
Proof.
  induction visits as [|[d ent] visits IH]; intros c arg toType; [intros []|].
  rewrite visitEach_cons, bind_eq.
  assert (Hhead : In (EvConvert arg toType) (log (visitor d ent c)) ->
                  toType = valueTypeInteger /\
                  exists depth ent0 op addr,
                    In (depth, ent0) ((d, ent) :: visits) /\
                    unwrapped ent0 = Some (bufferEntity op addr arg)).
  { destruct (checkVisitor_log d ent c) as [->|(op & addr & size & Hbuf & ->)].
    - intros [[=]|[]].
    - intros [[=]|[[= <- <-]|[]]]. split; [reflexivity|].
      exists d, ent, op, addr. split; [by left|exact Hbuf]. }
  destruct (res (visitor d ent c)) as [b|msg]; cbn [prepend log]; [|exact Hhead].
  rewrite in_app_iff. intros [Hin|Hin]; [by apply Hhead|].
  destruct (IH _ _ _ Hin) as (-> & depth & ent0 & op & addr & Hin0 & Hbuf).
  split; [reflexivity|]. exists depth, ent0, op, addr. split; [by right|exact Hbuf].
Qed.

(** X8.  The pass calls the converter on nothing but the size operand of
    a buffer (bare or named) that lies outside the method bodies, and
    always with Integer as the target type. *)
Theorem checkEntities_converts_sizes vm arg toType :
  In (EvConvert arg toType) (log (checkEntities vmConvert maxAlloc vm)) ->
  toType = valueTypeInteger /\
  exists ent op addr,
    In ent (staticOrder (rootNS vm)) /\
    unwrapped ent = Some (bufferEntity op addr arg).
Proof.
  rewrite checkEntities_eq. cbn [log].
  rewrite (checkEntities_visitEach vmConvert maxAlloc vm). intros Hin.
  destruct (visitEach_converts _ _ _ _ Hin) as (-> & depth & ent & op & addr & Hvis & Hbuf).
  split; [reflexivity|]. exists ent, op, addr. split; [|exact Hbuf].
  revert Hvis. unfold passVisits. rewrite checkEntities_eq. cbn [log].
  apply scopeVisit_visits_static.
Qed.

Lemma visitEach_error_origin visits :
  forall c e,
    chk_err c = None ->
    chk_err (st (visitEach' visits c)) = Some e ->
    exists pre depth ent post op addr size ctx' v,
      visits = pre ++ (depth, ent) :: post /\
      chk_err (st (visitEach' pre c)) = None /\
      unwrapped ent = Some (bufferEntity op addr size) /\
      vmConvert (chk_vm (st (visitEach' pre c))) (chk_ctx (st (visitEach' pre c)))
                size valueTypeInteger = (ctx', (v, Some e)).
Proof.
  induction visits as [|[d0 e0] visits IH]; intros c e Hnone; [cbn; congruence|].
  rewrite visitEach_cons, bind_eq.
  destruct (chk_err (st (visitor d0 e0 c))) as [e1|] eqn:Herr1.
  - destruct (checkVisitor_records_error vmConvert maxAlloc d0 e0 c e1 Hnone Herr1)
      as (op & addr & size & ctx' & v & Hbuf & Hconv & Hout).
    rewrite Hout. cbn [res st log prepend].
    rewrite (visitEach_after_error vmConvert maxAlloc visits
               (mkCheck (chk_vm c) (Some e1) ctx') e1 eq_refl).
    cbn [st chk_err]. intros [= <-].
    exists [], d0, e0, visits, op, addr, size, ctx', v.
    cbn [app visitEach ret st]. by repeat split.
  - destruct (res (visitor d0 e0 c)) as [b|msg] eqn:Hres; cbn [prepend st];
      [|congruence].
    intros Hfinal.
    destruct (IH _ e Herr1 Hfinal)
      as (pre & depth & ent & post & op & addr & size & ctx' & v
          & -> & Hpre & Hbuf & Hconv).
    exists ((d0, e0) :: pre), depth, ent, post, op, addr, size, ctx', v.
    rewrite visitEach_cons, bind_eq, Hres. cbn [prepend st app].
    by repeat split.
Qed.

(** X9.  The pass returns an error only if the converter reported it: an
    error result [e] means that some visited buffer, reached before any
    error was recorded, had a size operand whose conversion failed with
    [e]. *)
Theorem checkEntities_error_origin vm e :
  res (checkEntities vmConvert maxAlloc vm) = Val (Some e) ->
  exists pre depth ent post op addr size ctx' v,
    passVisits vmConvert maxAlloc vm = pre ++ (depth, ent) :: post /\
    chk_err (st (visitEach vmConvert maxAlloc pre (passStart vm))) = None /\
    unwrapped ent = Some (bufferEntity op addr size) /\
    vmConvert (chk_vm (st (visitEach vmConvert maxAlloc pre (passStart vm))))
              (chk_ctx (st (visitEach vmConvert maxAlloc pre (passStart vm))))
              size valueTypeInteger = (ctx', (v, Some e)).
Proof.
  rewrite checkEntities_eq. cbn [res].
  rewrite (checkEntities_visitEach vmConvert maxAlloc vm).
  destruct (res (visitEach' _ _)); [|discriminate].
  intros [= Herr].
  exact (visitEach_error_origin _ (passStart vm) e eq_refl Herr).
Qed.

Lemma visitEach_allocates visits :
  forall c,
    res (visitEach' visits c) = Val tt ->
    chk_err (st (visitEach' visits c)) = None ->
    forall depth ent addr,
      In (depth, ent) visits ->
      bufferAddr ent = Some addr ->
      is_Some (heap (chk_vm (st (visitEach' visits c))) !! addr).
Proof.
  induction visits as [|[d0 e0] visits IH]; intros c; [intros _ _ ? ? ? []|].
  rewrite visitEach_cons, bind_eq.
  destruct (res (visitor d0 e0 c)) as [b|msg] eqn:Hres; [|discriminate].
  cbn [prepend res st]. intros Hrest Hfinal depth ent addr [[= <- <-]|Hin] Haddr;
    [|by eapply IH; eauto].
  assert (Herr1 : chk_err (st (visitor d0 e0 c)) = None).
  { destruct (chk_err (st (visitor d0 e0 c))) as [e1|] eqn:Herr1; [|reflexivity].
    rewrite (visitEach_after_error vmConvert maxAlloc visits _ e1 Herr1) in Hfinal.
    cbn [st] in Hfinal. congruence. }
  assert (Hnone : chk_err c = None).
  { destruct (chk_err c) as [e1|] eqn:Hc; [|reflexivity].
    rewrite (checkVisitor_after_error vmConvert maxAlloc d0 e0 c e1 Hc) in Herr1.
    cbn [st] in Herr1. congruence. }
  unfold bufferAddr in Haddr.
  destruct (unwrapped e0) as [[| | |op addr' size|]|] eqn:Hbuf; try discriminate.
  injection Haddr as ->.
  assert (Hsome : is_Some (heap (chk_vm (st (visitor d0 e0 c))) !! addr)).
  { revert Hres Herr1. rewrite checkVisitor_eq, Hnone, Hbuf. cbn [prepend res st].
    destruct (initBuffer_effect addr size c) as (_ & Htrue & Hfalse).
    destruct b; intros Hres Herr1; [by apply Htrue|by destruct (Hfalse Hres)]. }
  pose proof (visitEach_grows visits (st (visitor d0 e0 c)) addr) as Hgrow.
  destruct Hsome as [data Hdata]. rewrite Hdata in Hgrow.
  destruct Hgrow as [n ->]. eauto.
Qed.

(** X10.  After a pass that returns nil no visited buffer (bare or
    named) has a nil payload: a buffer of size 0 without initialiser
    gets an empty slice. *)
Theorem checkEntities_allocates vm depth ent addr :
  res (checkEntities vmConvert maxAlloc vm) = Val None ->
  In (depth, ent) (passVisits vmConvert maxAlloc vm) ->
  bufferAddr ent = Some addr ->
  is_Some (heap (st (checkEntities vmConvert maxAlloc vm)) !! addr).
Proof.
  rewrite checkEntities_eq. cbn [res st].
  rewrite (checkEntities_visitEach vmConvert maxAlloc vm).
  destruct (res (visitEach' _ _)) as [[]|] eqn:Hres; [|discriminate].
  intros [= Herr]. by apply visitEach_allocates.
Qed.

Lemma payloadsWithin_set_data addr data vm :
  payloadsWithin maxAlloc vm ->
  Z.of_nat (length data) <= maxAlloc ->
  payloadsWithin maxAlloc (set_data addr data vm).
Proof.
  intros Hall Hdata a. unfold payload, set_data; cbn [heap].
  destruct (decide (a = addr)) as [->|Hne].
  - by rewrite lookup_insert_eq.
  - rewrite lookup_insert_ne by congruence. apply Hall.
Qed.

Lemma checkVisitor_safe depth ent c :
  maxAlloc < 2 ^ 64 ->
  payloadsWithin maxAlloc (chk_vm c) ->
  unwrapped ent <> None ->
  (forall op addr size,
      unwrapped ent = Some (bufferEntity op addr size) ->
      forall vm ctx ctx' v,
        vmConvert vm ctx size valueTypeInteger = (ctx', (v, None)) ->
        exists s, v = VUint64 s /\ 0 <= s <= maxAlloc) ->
  (exists b, res (visitor depth ent c) = Val b) /\
  payloadsWithin maxAlloc (chk_vm (st (visitor depth ent c))).
Proof.
  intros Hmax Hall Hunwrap Hsizes. rewrite checkVisitor_eq.
  destruct (chk_err c); [by eauto|].
  destruct (unwrapped ent) as [[op name cs|op name ac cs|op name args|op addr size|op args]|];
    try (by eauto); try congruence.
  cbn [prepend res st].
  destruct (vmConvert (chk_vm c) (chk_ctx c) size valueTypeInteger)
    as [ctx' [v [e|]]] eqn:Hconv.
  - rewrite (initBuffer_failed vmConvert maxAlloc addr size c ctx' v e Hconv). by eauto.
  - destruct (Hsizes op addr size eq_refl _ _ _ _ Hconv) as (s & -> & Hs).
    pose proof (Hall addr) as HL.
    rewrite (initBuffer_sized vmConvert maxAlloc addr size c ctx' s Hconv)
      by lia.
    cbv zeta. unfold payload in HL.
    destruct (heap (chk_vm c) !! addr) as [data|] eqn:Hcell;
      cbn [default from_option id] in HL.
    + destruct (Z.ltb_spec (Z.of_nat (length data)) s) as [Hlt|Hge].
      * destruct (Z.leb_spec (s - Z.of_nat (length data)) maxAlloc); [|lia].
        destruct (Z.leb_spec s maxAlloc); [|lia].
        cbn [prepend res st with_data chk_vm]. split; [by eauto|].
        apply payloadsWithin_set_data; [exact Hall|].
        rewrite padded_length. lia.
      * cbn [prepend res st chk_vm]. by eauto.
    + destruct (Z.leb_spec s maxAlloc); [|lia].
      cbn [prepend res st with_data chk_vm]. split; [by eauto|].
      apply payloadsWithin_set_data; [exact Hall|].
      rewrite repeat_length. lia.
Qed.

Lemma visitEach_safe visits :
  forall c,
    maxAlloc < 2 ^ 64 ->
    payloadsWithin maxAlloc (chk_vm c) ->
    (forall depth ent, In (depth, ent) visits -> unwrapped ent <> None) ->
    (forall depth ent op addr size,
        In (depth, ent) visits ->
        unwrapped ent = Some (bufferEntity op addr size) ->
        forall vm ctx ctx' v,
          vmConvert vm ctx size valueTypeInteger = (ctx', (v, None)) ->
          exists s, v = VUint64 s /\ 0 <= s <= maxAlloc) ->
    res (visitEach' visits c) = Val tt /\
    payloadsWithin maxAlloc (chk_vm (st (visitEach' visits c))).
Proof.
  induction visits as [|[d0 e0] visits IH]; intros c Hmax Hall Hunwrap Hsizes;
    [by split|].
  rewrite visitEach_cons, bind_eq.
  destruct (checkVisitor_safe d0 e0 c Hmax Hall) as [[b Hres] Hall1].
  { apply (Hunwrap d0). by left. }
  { intros op addr size. apply (Hsizes d0). by left. }
  rewrite Hres. cbn [prepend res st].
  apply IH; [exact Hmax|exact Hall1| |].
  - intros depth ent Hin. apply (Hunwrap depth). by right.
  - intros depth ent op addr size Hin. apply (Hsizes depth). by right.
Qed.

(** X11.  The pass does not panic, and keeps every payload within the
    longest slice there is, provided that (i) every named entity outside
    the method bodies has an operand, (ii) the converter, when it accepts
    the size of a buffer outside the method bodies, returns a uint64 that
    a slice can have as length, and (iii) the payloads are within that
    length when the pass starts. *)
Theorem checkEntities_safe vm :
  maxAlloc < 2 ^ 64 ->
  payloadsWithin maxAlloc vm ->
  operandsPresent (rootNS vm) ->
  sizesFit vmConvert maxAlloc (rootNS vm) ->
  (exists r, res (checkEntities vmConvert maxAlloc vm) = Val r) /\
  payloadsWithin maxAlloc (st (checkEntities vmConvert maxAlloc vm)).
Proof.
  intros Hmax Hall Hops Hfit.
  assert (Hstatic : forall depth ent,
             In (depth, ent) (passVisits vmConvert maxAlloc vm) ->
             In ent (staticOrder (rootNS vm))).
  { intros depth ent. unfold passVisits. rewrite checkEntities_eq. cbn [log].
    apply scopeVisit_visits_static. }
  destruct (visitEach_safe (passVisits vmConvert maxAlloc vm) (passStart vm) Hmax Hall)
    as [Hres Hall'].
  { intros depth ent Hin. apply Hops. eauto. }
  { intros depth ent op addr size Hin. apply Hfit. eauto. }
  rewrite checkEntities_eq. cbn [res st].
  rewrite (checkEntities_visitEach vmConvert maxAlloc vm), Hres.
  split; [by eauto|exact Hall'].
Qed.

End PassMore.

(** ** More on initialisation *)

Section InitMore.

Context {H : Type}.
Variable populateJumpTable : (opcode -> option H) -> (opcode -> option H).
Variable vmConvert :
  VM H -> execContext -> value -> valueType -> execContext * (value * option Error).
Variable maxAlloc : Z.

Implicit Types (vm : VM H).

Local Abbreviation Init' := (Init populateJumpTable vmConvert maxAlloc).
Local Abbreviation checkEntities' := (checkEntities vmConvert maxAlloc).
Local Abbreviation populated vm :=
  (set_jumpTable (populateJumpTable (jumpTable vm)) vm).

Lemma tableLoaded_keeps tableName header ns vm :
  tableResolver (tableLoaded tableName header ns vm) = tableResolver vm /\
  tableParser (tableLoaded tableName header ns vm) = tableParser vm /\
  jumpTable (tableLoaded tableName header ns vm) = jumpTable vm.
Proof. unfold tableLoaded. by destruct (String.eqb tableName "DSDT"). Qed.

(** The loop over the tables: what it keeps, what it logs, how it ends. *)
Lemma loadTables_shape tables :
  forall vm,
    tableResolver (st (loadTables tables vm)) = tableResolver vm /\
    tableParser (st (loadTables tables vm)) = tableParser vm /\
    jumpTable (st (loadTables tables vm)) = jumpTable vm /\
    (forall ev,
        In ev (log (loadTables tables vm)) ->
        (exists tableName, ev = EvLookupTable tableName) \/
        (exists i tableName header,
            ev = EvParseAML (uint8 (i + 1)) tableName header /\
            In (i, tableName) tables /\
            tableResolver vm tableName = Some header)) /\
    (forall e,
        res (loadTables tables vm) = Val (Some e) ->
        exists err, e = decodeFailure err) /\
    (forall msg, res (loadTables tables vm) <> Panic msg).
Proof.
  induction tables as [|[i tableName] tables IH]; intros vm.
  { cbn. repeat split; try done; by intros ev []. }
  destruct (tableResolver vm tableName) as [header|] eqn:Hres.
  - destruct (tableParser vm (uint8 (i + 1)) tableName header (rootNS vm, heap vm))
      as [ns [err|]] eqn:Hparse.
    + rewrite (loadTables_rejected i tableName tables vm header ns err Hres Hparse).
      cbn [st log res]. repeat split; try done.
      * intros ev [<-|[<-|[]]]; [left; eauto|].
        right. exists i, tableName, header. repeat split; [by left|exact Hres].
      * intros e [= <-]. eauto.
    + rewrite (loadTables_parsed i tableName tables vm header ns Hres Hparse).
      cbn [prepend st log res].
      destruct (tableLoaded_keeps tableName header ns vm) as (K1 & K2 & K3).
      destruct (IH (tableLoaded tableName header ns vm))
        as (I1 & I2 & I3 & I4 & I5 & I6).
      repeat split; try congruence; try done.
      intros ev [<-|[<-|Hin]]; [left; eauto| |].
      * right. exists i, tableName, header. repeat split; [by left|exact Hres].
      * destruct (I4 ev Hin) as [?|(i' & n' & h' & -> & Hin' & Hres')]; [by left|].
        right. exists i', n', h'. repeat split; [by right|congruence].
  - rewrite (loadTables_absent i tableName tables vm Hres).
    cbn [prepend st log res].
    destruct (IH vm) as (I1 & I2 & I3 & I4 & I5 & I6).
    repeat split; try done.
    intros ev [<-|Hin]; [left; eauto|].
    destruct (I4 ev Hin) as [?|(i' & n' & h' & -> & Hin' & Hres')]; [by left|].
    right. exists i', n', h'. repeat split; [by right|exact Hres'].
Qed.

(** The pass logs calls of the visitor and of the converter only. *)
Lemma checkEntities_log vm ev :
  In ev (log (checkEntities' vm)) ->
  (exists depth ent, ev = EvVisitor depth ent) \/
  (exists arg toType, ev = EvConvert arg toType).
Proof.
  rewrite checkEntities_eq. cbn [log].
  rewrite (checkEntities_visitEach vmConvert maxAlloc vm).
  generalize (passStart vm). generalize (passVisits vmConvert maxAlloc vm).
  induction l as [|[d ent] l IH]; intros c; [intros []|].
  rewrite visitEach_cons, bind_eq.
  assert (Hhead : In ev (log (checkVisitor vmConvert maxAlloc d ent c)) ->
                  (exists depth ent, ev = EvVisitor depth ent) \/
                  (exists arg toType, ev = EvConvert arg toType)).
  { destruct (checkVisitor_log vmConvert maxAlloc d ent c)
      as [->|(op & addr & size & _ & ->)].
    - intros [<-|[]]. left; eauto.
    - intros [<-|[<-|[]]]; [left|right]; eauto. }
  destruct (res (checkVisitor vmConvert maxAlloc d ent c)); cbn [prepend log];
    [|exact Hhead].
  rewrite in_app_iff. intros [Hin|Hin]; [by apply Hhead|by eapply IH].
Qed.

(** X12.  [Init] hands the parser only tables the resolver provided, the
    DSDT under handle 1 and the SSDT under handle 2; nothing else is ever
    parsed. *)
Theorem Init_parses_provided_tables vm tableHandle tableName header :
  In (EvParseAML tableHandle tableName header) (log (Init populateJumpTable vmConvert maxAlloc vm)) ->
  (tableHandle = 1 /\ tableName = "DSDT" \/ tableHandle = 2 /\ tableName = "SSDT") /\
  tableResolver vm tableName = Some header.
Proof.
  rewrite Init_eq.
  destruct (loadTables_shape [(0, "DSDT"); (1, "SSDT")] vm)
    as (_ & _ & _ & Hlog & _ & _).
  assert (Hloop : In (EvParseAML tableHandle tableName header)
                     (log (loadTables [(0, "DSDT"); (1, "SSDT")] vm)) ->
                  (tableHandle = 1 /\ tableName = "DSDT" \/
                   tableHandle = 2 /\ tableName = "SSDT") /\
                  tableResolver vm tableName = Some header).
  { intros Hin. destruct (Hlog _ Hin) as [[n [=]]|(i & n & h & [= -> -> ->] & Hin' & Hres)].
    split; [|exact Hres].
    destruct Hin' as [[= <- <-]|[[= <- <-]|[]]]; [left|right]; by split. }
  destruct (loadTables _ vm) as [vm1 l [[e|]|msg]]; cbn [log] in *; try exact Hloop.
  cbn [prepend log]. rewrite !in_app_iff.
  intros [[Hin|[[=]|[]]]|Hin]; [by apply Hloop|].
  destruct (checkEntities_log _ _ Hin) as [(? & ? & [=])|(? & ? & [=])].
Qed.

(** X13.  The integer width after [Init], whatever its outcome: the one
    the revision of the DSDT selects when the DSDT is present and parses,
    and otherwise (no DSDT, or a DSDT the parser rejects) the width the
    VM had.  The SSDT has no part in it. *)
Theorem Init_width vm :
  sizeOfIntInBits (st (Init populateJumpTable vmConvert maxAlloc vm)) =
  match tableResolver vm "DSDT" with
  | Some header =>
      match snd (tableParser vm 1 "DSDT" header (rootNS vm, heap vm)) with
      | None => if 2 <=? Revision header then 64 else 32
      | Some _ => sizeOfIntInBits vm
      end
  | None => sizeOfIntInBits vm
  end.
Proof.
  destruct (tableResolver vm "DSDT") as [header|] eqn:Hres.
  - destruct (tableParser vm 1 "DSDT" header (rootNS vm, heap vm))
      as [ns [err|]] eqn:Hparse; cbn [snd].
    + rewrite Init_width_after_loop.
      by rewrite (loadTables_rejected 0 "DSDT" _ vm header ns err Hres Hparse).
    + exact (Init_width_parsed populateJumpTable vmConvert maxAlloc vm header ns Hres Hparse).
  - exact (Init_width_absent populateJumpTable vmConvert maxAlloc vm Hres).
Qed.

(** X14.  An error returned by [Init] is either the wrapped error of the
    parser, in which case the jump table was not built, or the error of
    the static initialisation pass run on the VM with its jump table
    built. *)
Theorem Init_error_origin vm e :
  res (Init populateJumpTable vmConvert maxAlloc vm) = Val (Some e) ->
  (exists err,
      e = mkError (Module_ err +:+ ": " +:+ kernelError_Error err) /\
      jumpTable (st (Init populateJumpTable vmConvert maxAlloc vm)) = jumpTable vm /\
      ~ In EvPopulateJumpTable
           (log (Init populateJumpTable vmConvert maxAlloc vm))) \/
  (exists vm1,
      tableResolver vm1 = tableResolver vm /\
      jumpTable vm1 = jumpTable vm /\
      st (Init populateJumpTable vmConvert maxAlloc vm) =
        st (checkEntities vmConvert maxAlloc (populated vm1)) /\
      res (checkEntities vmConvert maxAlloc (populated vm1)) = Val (Some e)).
Proof.
  rewrite Init_eq.
  destruct (loadTables_shape [(0, "DSDT"); (1, "SSDT")] vm)
    as (K1 & _ & K3 & Hlog & Herr & _).
  destruct (loadTables _ vm) as [vm1 l [[e1|]|msg]]; cbn [st log res] in *;
    [| |discriminate].
  - intros [= <-]. left. destruct (Herr e1 eq_refl) as [err ->].
    exists err. repeat split; [exact K3|].
    intros Hin. destruct (Hlog _ Hin) as [[? [=]]|(? & ? & ? & [=] & _)].
  - cbn [prepend res st]. intros Hpass. right. exists vm1. by repeat split.
Qed.

(** X15.  After a successful [Init] the jump table of the VM is the one
    [populateJumpTable] built from the table the VM had, and the resolver
    and the parser of the VM are the ones it had. *)
Theorem Init_builds_jump_table vm :
  res (Init populateJumpTable vmConvert maxAlloc vm) = Val None ->
  jumpTable (st (Init populateJumpTable vmConvert maxAlloc vm)) = populateJumpTable (jumpTable vm) /\
  tableResolver (st (Init populateJumpTable vmConvert maxAlloc vm)) = tableResolver vm /\
  tableParser (st (Init populateJumpTable vmConvert maxAlloc vm)) = tableParser vm.
Proof.
  rewrite Init_eq.
  destruct (loadTables_shape [(0, "DSDT"); (1, "SSDT")] vm)
    as (K1 & K2 & K3 & _ & _ & _).
  destruct (loadTables _ vm) as [vm1 l [[e1|]|msg]]; cbn [st log res] in *;
    try discriminate.
  cbn [prepend res st]. intros _.
  destruct (checkEntities_touches vmConvert maxAlloc (populated vm1))
    as [(T1 & T2 & _ & _ & T5) _].
  rewrite T1, T2, T5. cbn. by rewrite K3.
Qed.

(** X16.  On a VM fresh from [NewVM] whose resolver has neither table,
    [Init] succeeds whatever the converter: the pass visits the root and
    the five predefined scopes, converts nothing, and the VM is the fresh
    one with its jump table built. *)
Theorem Init_fresh_without_tables opScope NewParser resolver :
  resolver "DSDT" = None ->
  resolver "SSDT" = None ->
  Init populateJumpTable vmConvert maxAlloc (NewVM opScope NewParser resolver) =
  mkOut (populated (NewVM opScope NewParser resolver))
        ([EvLookupTable "DSDT"; EvLookupTable "SSDT"; EvPopulateJumpTable]
           ++ map visited
                ((0, defaultACPIScopes opScope)
                   :: map (fun ent => (1, ent)) (Children (defaultACPIScopes opScope))))
        (Val None).
Proof.
  intros HD HS. rewrite Init_eq.
  rewrite (loadTables_absent 0 "DSDT" _ (NewVM opScope NewParser resolver) HD).
  rewrite (loadTables_absent 1 "SSDT" _ (NewVM opScope NewParser resolver) HS).
  reflexivity.
Qed.

End InitMore.

(** ** The further properties on the sample namespaces *)

(** The visitor on the method [MTH0]. *)
Lemma checkVisitor_leaves_non_buffers_witness :
  st (checkVisitor sampleConvert 100 2 sampleMethod (passStart sampleVM))
    = passStart sampleVM.
Proof.
  exact (proj1 (checkVisitor_leaves_non_buffers sampleConvert 100 2 sampleMethod
                  (passStart sampleVM) eq_refl)).
Defined.

(** The conversion of the size of [BUF0]. *)
Lemma checkEntities_converts_sizes_witness :
  exists ent op addr,
    In ent (staticOrder (rootNS sampleVM)) /\
    unwrapped ent = Some (bufferEntity op addr (VUint64 4)).
Proof.
  refine (proj2 (checkEntities_converts_sizes sampleConvert 100 sampleVM
                   (VUint64 4) valueTypeInteger _)).
  vm_compute. tauto.
Defined.

(** The error of the pass on the namespace with the empty-string size. *)
Lemma checkEntities_error_origin_witness :
  exists pre depth ent post op addr size ctx' v,
    passVisits sampleConvert 100 brokenVM = pre ++ (depth, ent) :: post /\
    chk_err (st (visitEach sampleConvert 100 pre (passStart brokenVM))) = None /\
    unwrapped ent = Some (bufferEntity op addr size) /\
    sampleConvert (chk_vm (st (visitEach sampleConvert 100 pre (passStart brokenVM))))
                  (chk_ctx (st (visitEach sampleConvert 100 pre (passStart brokenVM))))
                  size valueTypeInteger
      = (ctx', (v, Some errConversionFromEmptyString)).
Proof.
  exact (checkEntities_error_origin sampleConvert 100 brokenVM
           errConversionFromEmptyString eq_refl).
Defined.

(** The buffer at address 3 had a nil payload. *)
Lemma checkEntities_allocates_witness :
  is_Some (heap (st (checkEntities sampleConvert 100 sampleVM)) !! 3%N).
Proof.
  apply (checkEntities_allocates sampleConvert 100 sampleVM
           2 (bufferEntity opBuffer 3 (VUint64 3)) 3%N eq_refl).
  - vm_compute. tauto.
  - reflexivity.
Defined.

(** The sample namespace meets the three conditions. *)
Lemma checkEntities_safe_witness :
  exists r, res (checkEntities sampleConvert 100 sampleVM) = Val r.
Proof.
  refine (proj1 (checkEntities_safe sampleConvert 100 sampleVM _ _ _ _)).
  - lia.
  - intros a. unfold payload. cbn [sampleVM heap]. unfold sampleHeap.
    destruct (decide (a = 1%N)) as [->|Hne].
    + rewrite lookup_singleton_eq. cbn. lia.
    + rewrite lookup_singleton_ne by congruence. cbn. lia.
  - intros ent Hin. cbn in Hin.
    destruct Hin as [<-|[<-|[<-|[<-|[<-|[]]]]]]; discriminate.
  - intros ent op addr size Hin Hbuf vm ctx ctx' v Hconv. cbn in Hin.
    destruct Hin as [<-|[<-|[<-|[<-|[<-|[]]]]]]; try discriminate;
      cbn in Hbuf; injection Hbuf as <- <- <-;
      cbn in Hconv; injection Hconv as <- <-;
      (eexists; split; [reflexivity|lia]).
Defined.

(** The one call of the parser on the VM with a DSDT. *)
Lemma Init_parses_provided_tables_witness :
  (1 = 1 /\ "DSDT" = "DSDT" \/ 1 = 2 /\ "DSDT" = "SSDT") /\
  tableResolver (dsdtVM 2) "DSDT" = Some (mkHeader 2).
Proof.
  refine (Init_parses_provided_tables (populateWith tt) sampleConvert 100 (dsdtVM 2)
            1 "DSDT" (mkHeader 2) _).
  vm_compute. tauto.
Defined.

(** The error of [Init] on the VM whose parser rejects the DSDT. *)
Lemma Init_error_origin_witness :
  (exists err,
      mkError "acpi_aml_parser: unexpected end of stream"
        = mkError (Module_ err +:+ ": " +:+ kernelError_Error err) /\
      jumpTable (st (Init (populateWith tt) sampleConvert 100 rejectingVM))
        = jumpTable rejectingVM /\
      ~ In EvPopulateJumpTable (log (Init (populateWith tt) sampleConvert 100 rejectingVM))) \/
  (exists vm1,
      tableResolver vm1 = tableResolver rejectingVM /\
      jumpTable vm1 = jumpTable rejectingVM /\
      st (Init (populateWith tt) sampleConvert 100 rejectingVM)
        = st (checkEntities sampleConvert 100
                (set_jumpTable (populateWith tt (jumpTable vm1)) vm1)) /\
      res (checkEntities sampleConvert 100
             (set_jumpTable (populateWith tt (jumpTable vm1)) vm1))
        = Val (Some (mkError "acpi_aml_parser: unexpected end of stream"))).
Proof.
  exact (Init_error_origin (populateWith tt) sampleConvert 100 rejectingVM
           (mkError "acpi_aml_parser: unexpected end of stream") eq_refl).
Defined.

(** The jump table after a successful [Init]. *)
Lemma Init_builds_jump_table_witness :
  jumpTable (st (Init (populateWith tt) sampleConvert 100 (dsdtVM 2)))
    = populateWith tt (jumpTable (dsdtVM 2)).
Proof.
  exact (proj1 (Init_builds_jump_table (populateWith tt) sampleConvert 100 (dsdtVM 2)
                  eq_refl)).
Defined.

(** [Init] on the fresh VM without tables. *)
Lemma Init_fresh_without_tables_witness :
  res (Init (populateWith tt) sampleConvert 100 freshVM) = Val None.
Proof.
  unfold freshVM.
  rewrite (Init_fresh_without_tables (populateWith tt) sampleConvert 100
             16 (fun _ => idleParser) noTables eq_refl eq_refl).
  reflexivity.
Defined.
